(** * Behavioural pattern classes of the design-patterns catalogue

    A shallow embedding of the four behavioural demonstrations that the
    specification abstracts into its coordination kernel:

    - [Cmd]: [Invoker] of design-patterns/behavioral/command.ts
      (history of executed commands, undo);
    - [Obs]: [ConcreteSubject] of the Observer file (attach, detach,
      notify);
    - [St]: [Context]/[State] and [Document]/[DocumentState] of
      design-patterns/behavioral/state.ts;
    - [Med]: [ConcreteMediator] and [ChatRoom] of the Mediator file;
    - [Fly]: [FlyweightFactory] of
      design-patterns/structural/flyweight.ts.

    Objects are records in an explicit store, methods are functions in a
    state-and-exception monad, and the logger the files import is an
    output trace. *)

From Stdlib Require Import String List ZArith Lia.
From stdpp Require Import base list strings pretty gmap.

Local Open Scope string_scope.
Local Open Scope list_scope.

(** ** The imported logger and JavaScript completions *)

(** [LogType] of the imported logging package; the catalogue uses these
    three levels. *)
Inductive LogType := INFO | DEBUG | ERROR.

(** What [log(message, type)] leaves behind: one line of output. *)
Definition LogEntry : Type := string * LogType.
Definition Log : Type := list LogEntry.

(** A thrown value.  [TypeError] is what the runtime raises when a
    property of [undefined] is read or a missing method is called;
    [Thrown] stands for any value a participant throws itself. *)
Inductive Exn :=
| TypeError (msg : string)
| Thrown (v : string).

(** How a call ends: it returns, it throws a value of the program, or
    the budget of the model (the iterations of a loop, the depth of the
    call stack) is used up before it has ended. *)
Inductive Completion (A : Type) : Type :=
| Normal (a : A)
| Throw (e : Exn)
| Overrun.
Arguments Normal {A} a.
Arguments Throw {A} e.
Arguments Overrun {A}.

(** Code acting on a state [S]: the state it leaves and how it ended. *)
Definition Eff (S A : Type) : Type := S -> S * Completion A.

Definition ret {S A} (a : A) : Eff S A := fun s => (s, Normal a).

Definition bind {S A B} (m : Eff S A) (f : A -> Eff S B) : Eff S B :=
  fun s =>
    match m s with
    | (s', Normal a) => f a s'
    | (s', Throw e) => (s', Throw e)
    | (s', Overrun) => (s', Overrun)
    end.

Definition throw {S A} (e : Exn) : Eff S A := fun s => (s, Throw e).
Definition get {S} : Eff S S := fun s => (s, Normal s).
Definition modify {S} (f : S -> S) : Eff S unit := fun s => (f s, Normal tt).

Declare Scope eff_scope.
Delimit Scope eff_scope with eff.
Notation "'let!' x := m 'in' k" := (bind m (fun x => k))
  (at level 10, x name, m at level 100, k at level 200) : eff_scope.
Notation "m ;; k" := (bind m (fun _ => k))
  (at level 100, k at level 200, right associativity) : eff_scope.
Local Open Scope eff_scope.

(** [thrown c]: the call ended by throwing. *)
Definition thrown {A} (c : Completion A) : Prop := exists e, c = Throw e.

(** ** Command: design-patterns/behavioral/command.ts *)

Module Cmd.

(** The commands of the file act on the logger only, so the world a
    command sees is the output trace. *)
Definition log (msg : string) (t : LogType) : Eff Log unit :=
  modify (fun out => out ++ [(msg, t)]).

(** [interface Command { execute(): void; undo(): void; }] *)
Record Command := {
  execute : Eff Log unit;
  undo : Eff Log unit
}.

(** [class Receiver] *)
Definition Receiver_doSomething (a : string) : Eff Log unit :=
  log ("Receiver: Working on (" +:+ a +:+ ")") INFO.
Definition Receiver_doSomethingElse (b : string) : Eff Log unit :=
  log ("Receiver: Also working on (" +:+ b +:+ ")") INFO.
Definition Receiver_undoSomething (a : string) : Eff Log unit :=
  log ("Receiver: Undoing action on (" +:+ a +:+ ")") INFO.
Definition Receiver_undoSomethingElse (b : string) : Eff Log unit :=
  log ("Receiver: Undoing another action on (" +:+ b +:+ ")") INFO.

(** [class SimpleCommand] *)
Definition SimpleCommand (payload : string) : Command := {|
  execute :=
    log ("SimpleCommand: See, I can do simple things like printing ("
           +:+ payload +:+ ")") INFO;
  undo :=
    log ("SimpleCommand: Undoing action with payload (" +:+ payload +:+ ")") INFO
|}.

(** [class ComplexCommand]; the receiver object has no fields. *)
Definition ComplexCommand (a b : string) : Command := {|
  execute :=
    log "ComplexCommand: Complex stuff should be done by a receiver object." INFO;;
    Receiver_doSomething a;;
    Receiver_doSomethingElse b;
  undo :=
    log "ComplexCommand: Undoing complex stuff." INFO;;
    Receiver_undoSomething a;;
    Receiver_undoSomethingElse b
|}.

(** [class Invoker]: [history] is an array, pushed and popped at its
    end, so the top of the stack is the last element of the list. *)
Record Invoker := {
  onStart : option Command;
  onFinish : option Command;
  history : list Command
}.

Definition Invoker_new : Invoker :=
  {| onStart := None; onFinish := None; history := [] |}.

Definition setOnStart (c : Command) (inv : Invoker) : Invoker :=
  {| onStart := Some c; onFinish := onFinish inv; history := history inv |}.

Definition setOnFinish (c : Command) (inv : Invoker) : Invoker :=
  {| onStart := onStart inv; onFinish := Some c; history := history inv |}.

Definition set_history (h : list Command) (inv : Invoker) : Invoker :=
  {| onStart := onStart inv; onFinish := onFinish inv; history := h |}.

(** The state of a run: the invoker object and the logger output. *)
Definition World : Type := Invoker * Log.

(** A command runs on the output part of the world. *)
Definition run (m : Eff Log unit) : Eff World unit :=
  fun w => let '(out', r) := m (snd w) in ((fst w, out'), r).

Definition say (msg : string) (t : LogType) : Eff World unit := run (log msg t).

(** [this.history.push(c)] *)
Definition push (c : Command) : Eff World unit :=
  modify (fun w => (set_history (history (fst w) ++ [c]) (fst w), snd w)).

(** [this.history.pop()]: the last element, or [undefined] on an empty
    array, which is left as it is. *)
Definition pop : Eff World (option Command) :=
  fun w =>
    ((set_history (removelast (history (fst w))) (fst w), snd w),
     Normal (last (history (fst w)))).

(** [if (c) { c.execute(); this.history.push(c); }] *)
Definition apply_slot (slot : option Command) : Eff World unit :=
  match slot with
  | Some c => run (execute c);; push c
  | None => ret tt
  end.

Definition doSomethingImportant : Eff World unit :=
  say "Invoker: Does anybody want something done before I begin?" INFO;;
  let! inv := get in
  apply_slot (onStart (fst inv));;
  say "Invoker: ...doing something really important..." INFO;;
  say "Invoker: Does anybody want something done after I finish?" INFO;;
  let! inv' := get in
  apply_slot (onFinish (fst inv')).

Definition Invoker_undo : Eff World unit :=
  let! command := pop in
  match command with
  | Some c => say "Invoker: Undoing last command" INFO;; run (undo c)
  | None => say "Invoker: No commands to undo" INFO
  end.

(** Sample commands and invokers. *)
Definition failing (v : string) : Command :=
  {| execute := throw (Thrown v); undo := ret tt |}.

Definition demo_invoker : Invoker :=
  setOnFinish (ComplexCommand "Send email" "Save report")
    (setOnStart (SimpleCommand "Say Hi!") Invoker_new).

Definition after_demo : World :=
  fst (doSomethingImportant (demo_invoker, [])).

(** The specification's [CommandFailed]: nothing in the source defines,
    throws or catches an error of that name. *)
Definition CommandFailed : Exn := Thrown "CommandFailed".

(** [n] calls of [undo], one after the other. *)
Fixpoint undo_times (n : nat) : Eff World unit :=
  match n with
  | 0 => ret tt
  | S n' => Invoker_undo;; undo_times n'
  end.

(** What undoing the commands of [l], in the order of [l], does to the
    logger: the invoker's line, then the command's own [undo]. *)
Fixpoint undo_script (l : list Command) : Eff Log unit :=
  match l with
  | [] => ret tt
  | c :: l' => log "Invoker: Undoing last command" INFO;; undo c;; undo_script l'
  end.

(** What [doSomethingImportant] followed by two [undo] calls does to
    the logger when both slots hold a command. *)
Definition do_undo_script (c1 c2 : Command) : Eff Log unit :=
  log "Invoker: Does anybody want something done before I begin?" INFO;;
  execute c1;;
  log "Invoker: ...doing something really important..." INFO;;
  log "Invoker: Does anybody want something done after I finish?" INFO;;
  execute c2;;
  undo_script [c2; c1].

End Cmd.

(** ** Observer: [ConcreteSubject] and its observers *)

Module Obs.

(** An observer object is known by its identity; [includes] and
    [indexOf] compare references. *)
Definition ObsId : Type := nat.

(** The subject object ([state] is [undefined] until the business logic
    first assigns it) together with the logger output. *)
Record Store := {
  state : option Z;
  observers : list ObsId;
  out : Log
}.

Definition ConcreteSubject_new (o : Log) : Store :=
  {| state := None; observers := []; out := o |}.

Definition log (msg : string) (t : LogType) : Eff Store unit :=
  modify (fun s =>
    {| state := state s; observers := observers s; out := out s ++ [(msg, t)] |}).

Definition set_observers (l : list ObsId) : Eff Store unit :=
  modify (fun s => {| state := state s; observers := l; out := out s |}).

Definition set_state (v : Z) : Eff Store unit :=
  modify (fun s => {| state := Some v; observers := observers s; out := out s |}).

(** [this.observers.includes(observer)] *)
Definition includes (o : ObsId) (l : list ObsId) : bool :=
  existsb (Nat.eqb o) l.

(** [this.observers.indexOf(observer)]; [None] stands for [-1]. *)
Fixpoint indexOf (o : ObsId) (l : list ObsId) : option nat :=
  match l with
  | [] => None
  | x :: l' => if Nat.eqb o x then Some 0 else option_map S (indexOf o l')
  end.

(** [public attach(observer: Observer): void] *)
Definition attach (observer : ObsId) : Eff Store unit :=
  let! s := get in
  if includes observer (observers s) then
    log "Subject: Observer has been attached already." DEBUG
  else
    log "Subject: Attached an observer." INFO;;
    let! s' := get in
    set_observers (observers s' ++ [observer]).

(** [public detach(observer: Observer): void]; [splice(i, 1)] removes
    the element at index [i]. *)
Definition detach (observer : ObsId) : Eff Store unit :=
  let! s := get in
  match indexOf observer (observers s) with
  | None => log "Subject: Nonexistent observer." ERROR
  | Some observerIndex =>
      set_observers (delete observerIndex (observers s));;
      log "Subject: Detached an observer." INFO
  end.

(** [update(subject)] of an observer: it is handed the subject, so it
    may read [state], log, attach or detach, and throw. *)
Definition Handler : Type := Eff Store unit.

(** [class ConcreteObserverA]; a comparison with [undefined] is false. *)
Definition ConcreteObserverA : Handler :=
  let! s := get in
  match state s with
  | Some n =>
      if (n <? 5)%Z then log "ConcreteObserverA: Reacted to the event." INFO
      else ret tt
  | None => ret tt
  end.

(** [class ConcreteObserverB] *)
Definition ConcreteObserverB : Handler :=
  let! s := get in
  match state s with
  | Some n =>
      if ((n =? 0) || (2 <=? n))%Z
      then log "ConcreteObserverB: Reacted to the event." INFO
      else ret tt
  | None => ret tt
  end.

(** A run also keeps the sequence of [update] calls made so far; the
    source has no such field, it is the observable "who was invoked". *)
Definition World : Type := Store * list ObsId.

Definition lift {A} (m : Eff Store A) : Eff World A :=
  fun w => let '(s', r) := m (fst w) in ((s', snd w), r).

Section Notify.

(** The [update] method of each observer object. *)
Variable update : ObsId -> Handler.

(** [observer.update(this)] *)
Definition call (o : ObsId) : Eff World unit :=
  fun w => let '(s', r) := update o (fst w) in ((s', snd w ++ [o]), r).

(** [for (const observer of this.observers) observer.update(this)]:
    the array iterator reads [this.observers[i]] of the array as it is
    at that moment and stops when [i] reaches its length.  [fuel]
    bounds the number of iterations. *)
Fixpoint notify_from (fuel i : nat) : Eff World unit :=
  let! w := get in
  match observers (fst w) !! i with
  | None => ret tt
  | Some observer =>
      match fuel with
      | 0 => fun w' => (w', Overrun)
      | S fuel' => call observer;; notify_from fuel' (S i)
      end
  end.

(** [public notify(): void] *)
Definition notify (fuel : nat) : Eff World unit :=
  lift (log "Subject: Notifying observers..." INFO);;
  notify_from fuel 0.

(** [public someBusinessLogic(): void]; [r] is the value of
    [Math.floor(Math.random() * (10 + 1))]. *)
Definition someBusinessLogic (fuel : nat) (r : Z) : Eff World unit :=
  lift (log "Subject: I'm doing something important." INFO);;
  lift (set_state r);;
  lift (log ("Subject: My state has changed to: " +:+ pretty r) INFO);;
  notify fuel.

End Notify.

(** A subscription request from outside. *)
Inductive Op := Attach (o : ObsId) | Detach (o : ObsId).

Definition do_op (op : Op) : Eff Store unit :=
  match op with
  | Attach o => attach o
  | Detach o => detach o
  end.

(** A sequence of subscription requests, one after the other. *)
Fixpoint do_ops (ops : list Op) : Eff Store unit :=
  match ops with
  | [] => ret tt
  | op :: ops' => do_op op;; do_ops ops'
  end.

(** The subscriber list as the specification words it: the listeners
    registered so far, in the order in which they subscribed.  A
    subscribe of a registered listener changes nothing, an unsubscribe
    takes the listener out.  It is compared with what [attach] and
    [detach] build in [observers_registered]. *)
Fixpoint registered_after (l : list ObsId) (ops : list Op) : list ObsId :=
  match ops with
  | [] => l
  | Attach o :: ops' =>
      registered_after (if decide (o ∈ l) then l else l ++ [o]) ops'
  | Detach o :: ops' =>
      registered_after (filter (fun x => x <> o) l) ops'
  end.

Definition registered (ops : list Op) : list ObsId := registered_after [] ops.

(** Two properties of a handler used in the statements below: it always
    returns normally, and it leaves the subscriber array alone. *)
Definition returns (h : Handler) : Prop :=
  forall s, snd (h s) = Normal tt.

Definition steady (h : Handler) : Prop :=
  forall s, observers (fst (h s)) = observers s.

(** Sample observers: one that throws, one that detaches observer [2]. *)
Definition faulty : Handler := throw (Thrown "listener failed").
Definition quiet : Handler := ret tt.

Definition update_faulty_first (o : ObsId) : Handler :=
  match o with
  | 1 => faulty
  | _ => ConcreteObserverB
  end.

Definition update_detaching (o : ObsId) : Handler :=
  match o with
  | 1 => detach 2
  | _ => quiet
  end.

Definition update_demo (o : ObsId) : Handler :=
  match o with
  | 1 => ConcreteObserverA
  | _ => ConcreteObserverB
  end.

(** Whether observer [o] is to be subscribed after the requests [ops],
    going by its most recent request alone: the last [Attach o] or
    [Detach o] decides, and [cur] stands if there is none. *)
Fixpoint wants (o : ObsId) (ops : list Op) (cur : bool) : bool :=
  match ops with
  | [] => cur
  | Attach x :: ops' => wants o ops' (if Nat.eqb x o then true else cur)
  | Detach x :: ops' => wants o ops' (if Nat.eqb x o then false else cur)
  end.

(** Sample observers that change the subscriptions while notified:
    observer [1] detaches itself, or attaches observer [9]. *)
Definition update_self_detaching (o : ObsId) : Handler :=
  match o with
  | 1 => detach 1
  | _ => quiet
  end.

Definition update_attaching (o : ObsId) : Handler :=
  match o with
  | 1 => attach 9
  | _ => quiet
  end.

(** Observer [2] renews its subscription whenever it is notified: it
    detaches itself and attaches itself again. *)
Definition update_reattaching (o : ObsId) : Handler :=
  match o with
  | 2 => detach 2;; attach 2
  | _ => quiet
  end.

End Obs.

(** ** State: design-patterns/behavioral/state.ts *)

Module St.

(** Objects live in a store and are referred to by address; a state
    object and its context refer to each other. *)
Abbreviation addr := nat (only parsing).

Inductive StateClass := ConcreteStateA | ConcreteStateB.
Inductive DocStateClass := DraftState | ModerationState | PublishedState.

(** The four kinds of object of the file with their fields.  A field
    that has not been assigned yet is [undefined] ([None]). *)
Inductive Obj :=
| Context (state : option addr)
| State (cls : StateClass) (context : option addr)
| Document (name : string) (state : option addr)
| DocumentState (cls : DocStateClass) (document : option addr).

Record Store := {
  heap : list Obj;
  out : Log
}.

Definition log (msg : string) (t : LogType) : Eff Store unit :=
  modify (fun s => {| heap := heap s; out := out s ++ [(msg, t)] |}).

(** [new C(...)]: a fresh object at the next free address. *)
Definition alloc (o : Obj) : Eff Store addr :=
  fun s => ({| heap := heap s ++ [o]; out := out s |}, Normal (length (heap s))).

Definition undefined_read {A} : Eff Store A :=
  throw (TypeError "Cannot read properties of undefined").

(** Reading through a reference.  The type checker of the source rules
    out a reference to an object of another class; the model answers
    [TypeError] there. *)
Definition load (a : addr) : Eff Store Obj :=
  fun s =>
    match heap s !! a with
    | Some o => (s, Normal o)
    | None => undefined_read s
    end.

Definition store (a : addr) (o : Obj) : Eff Store unit :=
  modify (fun s => {| heap := <[a := o]> (heap s); out := out s |}).

(** [x.constructor.name] *)
Definition state_class_name (c : StateClass) : string :=
  match c with
  | ConcreteStateA => "ConcreteStateA"
  | ConcreteStateB => "ConcreteStateB"
  end.

Definition doc_state_class_name (c : DocStateClass) : string :=
  match c with
  | DraftState => "DraftState"
  | ModerationState => "ModerationState"
  | PublishedState => "PublishedState"
  end.

(** *** [Context] and [State] *)

(** [State.setContext(context)] *)
Definition State_setContext (this context : addr) : Eff Store unit :=
  let! o := load this in
  match o with
  | State c _ => store this (State c (Some context))
  | _ => undefined_read
  end.

(** [Context.transitionTo(state)] *)
Definition Context_transitionTo (this state : addr) : Eff Store unit :=
  let! so := load state in
  match so with
  | State c _ =>
      log ("Context: Transitioning to " +:+ state_class_name c +:+ ".") INFO;;
      let! o := load this in
      match o with
      | Context _ =>
          store this (Context (Some state));;
          State_setContext state this
      | _ => undefined_read
      end
  | _ => undefined_read
  end.

(** [new Context(state)] *)
Definition Context_new (state : addr) : Eff Store addr :=
  let! this := alloc (Context None) in
  Context_transitionTo this state;;
  ret this.

(** [this.context.transitionTo(new C())] inside a handler: the callee
    is found through the back-reference before the argument is built. *)
Definition via_context (context : option addr) (c : StateClass) : Eff Store unit :=
  match context with
  | Some ctx =>
      let! fresh := alloc (State c None) in
      Context_transitionTo ctx fresh
  | None => undefined_read
  end.

(** [handle1()] of the two concrete states *)
Definition State_handle1 (this : addr) : Eff Store unit :=
  let! o := load this in
  match o with
  | State ConcreteStateA context =>
      log "ConcreteStateA handles request1." INFO;;
      log "ConcreteStateA wants to change the state of the context." INFO;;
      via_context context ConcreteStateB
  | State ConcreteStateB _ =>
      log "ConcreteStateB handles request1." INFO
  | _ => undefined_read
  end.

(** [handle2()] of the two concrete states *)
Definition State_handle2 (this : addr) : Eff Store unit :=
  let! o := load this in
  match o with
  | State ConcreteStateA _ =>
      log "ConcreteStateA handles request2." INFO
  | State ConcreteStateB context =>
      log "ConcreteStateB handles request2." INFO;;
      log "ConcreteStateB wants to change the state of the context." INFO;;
      via_context context ConcreteStateA
  | _ => undefined_read
  end.

(** [this.state] of a context *)
Definition Context_state (this : addr) : Eff Store addr :=
  let! o := load this in
  match o with
  | Context (Some s) => ret s
  | _ => undefined_read
  end.

(** [Context.request1()] and [Context.request2()] *)
Definition Context_request1 (this : addr) : Eff Store unit :=
  let! s := Context_state this in State_handle1 s.

Definition Context_request2 (this : addr) : Eff Store unit :=
  let! s := Context_state this in State_handle2 s.

(** *** [Document] and [DocumentState] *)

(** [DocumentState.setDocument(document)] *)
Definition DocumentState_setDocument (this document : addr) : Eff Store unit :=
  let! o := load this in
  match o with
  | DocumentState c _ => store this (DocumentState c (Some document))
  | _ => undefined_read
  end.

(** [this.state = v] of a document *)
Definition Document_set_state (this v : addr) : Eff Store unit :=
  let! o := load this in
  match o with
  | Document n _ => store this (Document n (Some v))
  | _ => undefined_read
  end.

(** [this.state] of a document *)
Definition Document_state (this : addr) : Eff Store addr :=
  let! o := load this in
  match o with
  | Document _ (Some s) => ret s
  | _ => undefined_read
  end.

(** [Document.getName()] *)
Definition Document_getName (this : addr) : Eff Store string :=
  let! o := load this in
  match o with
  | Document n _ => ret n
  | _ => undefined_read
  end.

(** The class of a document-state object, for [constructor.name]. *)
Definition DocumentState_class (this : addr) : Eff Store DocStateClass :=
  let! o := load this in
  match o with
  | DocumentState c _ => ret c
  | _ => undefined_read
  end.

(** [new Document(name)] *)
Definition Document_new (name : string) : Eff Store addr :=
  let! this := alloc (Document name None) in
  let! st := alloc (DocumentState DraftState None) in
  Document_set_state this st;;
  let! cur := Document_state this in
  DocumentState_setDocument cur this;;
  log ("Document '" +:+ name +:+ "' created in Draft state.") INFO;;
  ret this.

(** [Document.changeState(state)] *)
Definition Document_changeState (this state : addr) : Eff Store unit :=
  let! n := Document_getName this in
  let! cur := Document_state this in
  let! from := DocumentState_class cur in
  let! to := DocumentState_class state in
  log ("Document '" +:+ n +:+ "': Changing state from "
         +:+ doc_state_class_name from +:+ " to " +:+ doc_state_class_name to) INFO;;
  Document_set_state this state;;
  let! cur' := Document_state this in
  DocumentState_setDocument cur' this.

(** [log(`Document '${this.document.getName()}': ...`)] inside a state
    method: the name is read through the back-reference. *)
Definition doc_log (document : option addr) (text : string) : Eff Store unit :=
  match document with
  | Some d =>
      let! n := Document_getName d in
      log ("Document '" +:+ n +:+ "': " +:+ text) INFO
  | None => undefined_read
  end.

(** [this.document.changeState(new C())] inside a state method *)
Definition via_document (document : option addr) (c : DocStateClass) : Eff Store unit :=
  match document with
  | Some d =>
      let! fresh := alloc (DocumentState c None) in
      Document_changeState d fresh
  | None => undefined_read
  end.

(** [publish()] of the three document states *)
Definition DocumentState_publish (this : addr) : Eff Store unit :=
  let! o := load this in
  match o with
  | DocumentState DraftState document =>
      doc_log document "Cannot publish directly from Draft state.";;
      doc_log document "Sending for moderation first.";;
      via_document document ModerationState
  | DocumentState ModerationState document =>
      doc_log document
        "Cannot publish from Moderation state. Document must be approved first."
  | DocumentState PublishedState document =>
      doc_log document "Document is already published."
  | _ => undefined_read
  end.

(** [review()] of the three document states *)
Definition DocumentState_review (this : addr) : Eff Store unit :=
  let! o := load this in
  match o with
  | DocumentState DraftState document =>
      doc_log document "Draft is under review."
  | DocumentState ModerationState document =>
      doc_log document "Document has been reviewed and approved.";;
      via_document document PublishedState
  | DocumentState PublishedState document =>
      doc_log document "Published document is being reviewed."
  | _ => undefined_read
  end.

(** [reject()] of the three document states *)
Definition DocumentState_reject (this : addr) : Eff Store unit :=
  let! o := load this in
  match o with
  | DocumentState DraftState document =>
      doc_log document
        "Draft cannot be rejected yet. It needs to be reviewed first."
  | DocumentState ModerationState document =>
      doc_log document "Document has been rejected.";;
      via_document document DraftState
  | DocumentState PublishedState document =>
      doc_log document "Published document has been rejected and unpublished.";;
      via_document document DraftState
  | _ => undefined_read
  end.

(** [render()] of the three document states *)
Definition DocumentState_render (this : addr) : Eff Store string :=
  let! c := DocumentState_class this in
  ret match c with
      | DraftState => "Document is in DRAFT mode (only visible to authors)."
      | ModerationState => "Document is in MODERATION mode (visible to moderators)."
      | PublishedState => "Document is in PUBLISHED mode (visible to everyone)."
      end.

(** [Document.publish()], [review()], [reject()], [render()] *)
Definition Document_publish (this : addr) : Eff Store unit :=
  let! s := Document_state this in DocumentState_publish s.
Definition Document_review (this : addr) : Eff Store unit :=
  let! s := Document_state this in DocumentState_review s.
Definition Document_reject (this : addr) : Eff Store unit :=
  let! s := Document_state this in DocumentState_reject s.
Definition Document_render (this : addr) : Eff Store string :=
  let! s := Document_state this in DocumentState_render s.

(** The three requests a caller can make of a document. *)
Inductive Trigger := Publish | Review | Reject.

Definition Document_request (t : Trigger) (this : addr) : Eff Store unit :=
  match t with
  | Publish => Document_publish this
  | Review => Document_review this
  | Reject => Document_reject this
  end.

(** The transitions the state methods make, read off as a table: the
    pairs on which a method calls [changeState], with the class of the
    state it installs.  [rule_agrees] below checks the table against
    the methods. *)
Definition rule (c : DocStateClass) (t : Trigger) : option DocStateClass :=
  match c, t with
  | DraftState, Publish => Some ModerationState
  | ModerationState, Review => Some PublishedState
  | ModerationState, Reject => Some DraftState
  | PublishedState, Reject => Some DraftState
  | _, _ => None
  end.

(** *** Invariants *)

(** The object installed as the current state of context [c] refers
    back to [c]. *)
Definition context_linked (s : Store) (c : addr) : Prop :=
  exists st k,
    heap s !! c = Some (Context (Some st)) /\
    heap s !! st = Some (State k (Some c)).

(** The same for a document whose current state has class [k]. *)
Definition document_linked (s : Store) (d : addr) (k : DocStateClass) : Prop :=
  exists n st,
    heap s !! d = Some (Document n (Some st)) /\
    heap s !! st = Some (DocumentState k (Some d)).

(** *** Runs *)

(** What a client does with a context: transition it to a newly built
    state, or make one of the two requests. *)
Inductive ContextOp :=
| TransitionToNew (c : StateClass)
| Request1
| Request2.

Definition context_op (this : addr) (op : ContextOp) : Eff Store unit :=
  match op with
  | TransitionToNew c =>
      let! fresh := alloc (State c None) in Context_transitionTo this fresh
  | Request1 => Context_request1 this
  | Request2 => Context_request2 this
  end.

Fixpoint context_ops (this : addr) (ops : list ContextOp) : Eff Store unit :=
  match ops with
  | [] => ret tt
  | op :: ops' => context_op this op;; context_ops this ops'
  end.

(** [const context = new Context(new C())] followed by [ops]. *)
Definition context_run (c : StateClass) (ops : list ContextOp) : Eff Store addr :=
  let! st := alloc (State c None) in
  let! this := Context_new st in
  context_ops this ops;;
  ret this.

(** What a client does with a document. *)
Inductive DocumentOp :=
| ChangeStateToNew (c : DocStateClass)
| Request (t : Trigger).

Definition document_op (this : addr) (op : DocumentOp) : Eff Store unit :=
  match op with
  | ChangeStateToNew c =>
      let! fresh := alloc (DocumentState c None) in Document_changeState this fresh
  | Request t => Document_request t this
  end.

Fixpoint document_ops (this : addr) (ops : list DocumentOp) : Eff Store unit :=
  match ops with
  | [] => ret tt
  | op :: ops' => document_op this op;; document_ops this ops'
  end.

(** [const document = new Document(name)] followed by [ops]. *)
Definition document_run (name : string) (ops : list DocumentOp) : Eff Store addr :=
  let! this := Document_new name in
  document_ops this ops;;
  ret this.

Definition empty_store : Store := {| heap := []; out := [] |}.

(** *** The classes a run goes through *)

(** Context [c] has a current state of class [k] that refers back to it. *)
Definition context_in (s : Store) (c : addr) (k : StateClass) : Prop :=
  exists st,
    heap s !! c = Some (Context (Some st)) /\
    heap s !! st = Some (State k (Some c)).

(** Document [d], named [n], has a current state of class [k] that
    refers back to it. *)
Definition document_in (s : Store) (d : addr) (n : string) (k : DocStateClass) : Prop :=
  exists st,
    heap s !! d = Some (Document n (Some st)) /\
    heap s !! st = Some (DocumentState k (Some d)).

(** The class a context is in after one client operation, as the two
    [handle] methods of each concrete state decide it. *)
Definition context_step (k : StateClass) (op : ContextOp) : StateClass :=
  match op, k with
  | TransitionToNew c, _ => c
  | Request1, ConcreteStateA => ConcreteStateB
  | Request2, ConcreteStateB => ConcreteStateA
  | _, _ => k
  end.

(** The same for a document, by the table [rule]. *)
Definition document_step (k : DocStateClass) (op : DocumentOp) : DocStateClass :=
  match op with
  | ChangeStateToNew c => c
  | Request t => default k (rule k t)
  end.

(** The text [render()] returns in each class. *)
Definition mode_text (c : DocStateClass) : string :=
  match c with
  | DraftState => "Document is in DRAFT mode (only visible to authors)."
  | ModerationState => "Document is in MODERATION mode (visible to moderators)."
  | PublishedState => "Document is in PUBLISHED mode (visible to everyone)."
  end.

End St.

(** ** Mediator: [ConcreteMediator] and [ChatRoom] *)

Module Med.

Definition log (msg : string) (t : LogType) : Eff Log unit :=
  modify (fun out => out ++ [(msg, t)]).

(** *** [ConcreteMediator] with its two components *)

(** The object passed as [sender]. *)
Inductive Sender := TheComponent1 | TheComponent2.

(** [interface Mediator { notify(sender: object, event: string): void }] *)
Record Mediator := {
  notify : Sender -> string -> Eff Log unit
}.

(** [Component1.doB()] and [Component2.doC()]: the reactions. *)
Definition Component1_doB : Eff Log unit := log "Component 1 does B." INFO.
Definition Component2_doC : Eff Log unit := log "Component 2 does C." INFO.

(** [ConcreteMediator.notify(sender, event)] *)
Definition ConcreteMediator_notify (sender : Sender) (event : string) : Eff Log unit :=
  (if String.eqb event "A" then
     log "Mediator reacts to A and triggers following operations:" INFO;;
     Component2_doC
   else ret tt);;
  (if String.eqb event "D" then
     log "Mediator reacts to D and triggers following operations:" INFO;;
     Component1_doB;;
     Component2_doC
   else ret tt).

Definition ConcreteMediator : Mediator := {| notify := ConcreteMediator_notify |}.

(** [this.mediator.notify(this, event)] in a component whose [mediator]
    field may still be [undefined]. *)
Definition tell (mediator : option Mediator) (sender : Sender) (event : string)
  : Eff Log unit :=
  match mediator with
  | Some m => notify m sender event
  | None => throw (TypeError "Cannot read properties of undefined")
  end.

(** [Component1.doA()] and [Component2.doD()] *)
Definition Component1_doA (mediator : option Mediator) : Eff Log unit :=
  log "Component 1 does A." INFO;;
  tell mediator TheComponent1 "A".

Definition Component2_doD (mediator : option Mediator) : Eff Log unit :=
  log "Component 2 does D." INFO;;
  tell mediator TheComponent2 "D".

(** *** [ChatRoom] and its users *)

(** User and room objects are referred to by address. *)
Abbreviation addr := nat (only parsing).

(** The fields of a user object; [chatRoom] is [undefined] until a room
    accepts the user. *)
Record UserObj := {
  name : string;
  chatRoom : option addr
}.

(** [users: Map<string, User>]: keys in insertion order, each once. *)
Definition UserMap : Type := list (string * addr).

(** [users.has(key)] and [users.get(key)] *)
Definition has (key : string) (m : UserMap) : bool :=
  existsb (fun kv => String.eqb key (fst kv)) m.

Fixpoint get_user (key : string) (m : UserMap) : option addr :=
  match m with
  | [] => None
  | (k, v) :: m' => if String.eqb key k then Some v else get_user key m'
  end.

(** [users.set(key, value)]: a present key keeps its place. *)
Fixpoint set_user (key : string) (value : addr) (m : UserMap) : UserMap :=
  match m with
  | [] => [(key, value)]
  | (k, v) :: m' =>
      if String.eqb key k then (k, value) :: m'
      else (k, v) :: set_user key value m'
  end.

(** The objects: users and rooms, each room being its user map. *)
Record Heap := {
  userObjs : list UserObj;
  rooms : list UserMap
}.

Definition Store : Type := Heap * Log.

Definition say (msg : string) (t : LogType) : Eff Store unit :=
  fun s => ((fst s, snd s ++ [(msg, t)]), Normal tt).

Definition undefined_read {S A} : Eff S A :=
  throw (TypeError "Cannot read properties of undefined").

(** [user.getName()] *)
Definition getName (h : Heap) (user : addr) : option string :=
  name <$> userObjs h !! user.

(** [user.setChatRoom(chatRoom)] *)
Definition setChatRoom (user room : addr) (h : Heap) : Heap :=
  {| userObjs :=
       match userObjs h !! user with
       | Some u => <[user := {| name := name u; chatRoom := Some room |}]> (userObjs h)
       | None => userObjs h
       end;
     rooms := rooms h |}.

Definition set_room (room : addr) (m : UserMap) (h : Heap) : Heap :=
  {| userObjs := userObjs h; rooms := <[room := m]> (rooms h) |}.

(** [new ChatUser(name)] and [new ChatRoom()] *)
Definition ChatUser_new (n : string) : Eff Store addr :=
  fun s =>
    (({| userObjs := userObjs (fst s) ++ [{| name := n; chatRoom := None |}];
         rooms := rooms (fst s) |}, snd s),
     Normal (length (userObjs (fst s)))).

Definition ChatRoom_new : Eff Store addr :=
  fun s =>
    (({| userObjs := userObjs (fst s); rooms := rooms (fst s) ++ [[]] |}, snd s),
     Normal (length (rooms (fst s)))).

(** [ChatRoom.register(user)] *)
Definition ChatRoom_register (this user : addr) : Eff Store unit :=
  let! s := get in
  match getName (fst s) user, rooms (fst s) !! this with
  | Some n, Some users =>
      if negb (has n users) then
        modify (fun s' => (set_room this (set_user n user users) (fst s'), snd s'));;
        modify (fun s' => (setChatRoom user this (fst s'), snd s'));;
        say ("ChatRoom: " +:+ n +:+ " joined the chat room.") INFO
      else ret tt
  | _, _ => undefined_read
  end.

(** [receive(sender, message)] of a user object.  It is given the
    object's own [send] method, which is how a participant answers from
    inside [receive]; besides that it may log and throw. *)
Definition Receive : Type :=
  (string -> Eff Log unit) -> string -> string -> Eff Log unit.

(** [ChatUser.receive(sender, message)] *)
Definition ChatUser_receive (me : string) : Receive :=
  fun _ sender message =>
    log (me +:+ " received message from " +:+ sender +:+ ": " +:+ message) INFO.

(** [users.forEach(f)] *)
Fixpoint forEach (m : UserMap) (f : string -> addr -> Eff Log unit) : Eff Log unit :=
  match m with
  | [] => ret tt
  | (k, v) :: m' => f k v;; forEach m' f
  end.

Section Routing.

(** The users and rooms; sending and receiving do not change them. *)
Variable h : Heap.

(** The [receive] method of each user object. *)
Variable receive_of : addr -> Receive.

(** [ChatUser.send(message)], given the [send] of rooms. *)
Definition ChatUser_send_via
    (room_send : addr -> string -> addr -> Eff Log unit)
    (this : addr) (message : string) : Eff Log unit :=
  match userObjs h !! this with
  | Some u =>
      log (name u +:+ " sends: " +:+ message) INFO;;
      match chatRoom u with
      | Some room => room_send room message this
      | None => undefined_read
      end
  | None => undefined_read
  end.

(** [ChatRoom.send(message, sender)].  The source has no counter or
    limit here; [depth] is the room the call stack has for sends nested
    in one another: a send nested deeper than [depth] ends the run as
    [Overrun].  This is where a JavaScript engine, whose stack is
    finite, ends the chain with its own [RangeError] (maximum call
    stack size exceeded). *)
Fixpoint ChatRoom_send (depth : nat) (this : addr) (message : string) (sender : addr)
  : Eff Log unit :=
  match depth with
  | 0 => fun out => (out, Overrun)
  | S depth' =>
      match getName h sender, rooms h !! this with
      | Some senderName, Some users =>
          log ("ChatRoom: Dispatching message from " +:+ senderName) INFO;;
          forEach users (fun userName user =>
            if negb (String.eqb userName senderName) then
              receive_of user
                (ChatUser_send_via (ChatRoom_send depth') user)
                senderName message
            else ret tt)
      | _, _ => undefined_read
      end
  end.

(** [ChatUser.send(message)] as a client calls it. *)
Definition ChatUser_send (depth : nat) (this : addr) (message : string) : Eff Log unit :=
  ChatUser_send_via (ChatRoom_send depth) this message.

(** [ChatRoom.sendDirectMessage(message, sender, receiverName)] *)
Definition ChatRoom_sendDirectMessage (depth : nat) (this : addr)
    (message : string) (sender : addr) (receiverName : string) : Eff Log unit :=
  match getName h sender, rooms h !! this with
  | Some senderName, Some users =>
      match get_user receiverName users with
      | Some receiver =>
          log ("ChatRoom: Sending direct message from " +:+ senderName
                 +:+ " to " +:+ receiverName) INFO;;
          receive_of receiver
            (ChatUser_send_via (ChatRoom_send depth) receiver)
            senderName message
      | None => log ("ChatRoom: User " +:+ receiverName +:+ " not found") ERROR
      end
  | _, _ => undefined_read
  end.

End Routing.

(** A call on the log neither throws nor drops a line already written. *)
Definition gentle (m : Eff Log unit) : Prop :=
  forall out, ~ thrown (snd (m out)) /\ out `prefix_of` fst (m out).

(** A [receive] method that throws only if its [send] does and that
    only adds to the log. *)
Definition polite (r : Receive) : Prop :=
  forall send sender message,
    (forall m, gentle (send m)) -> gentle (r send sender message).

(** Every user a room holds exists and has its [chatRoom] set to an
    existing room, as [register] leaves it. *)
Definition wired (h : Heap) : Prop :=
  forall r users k u,
    rooms h !! r = Some users -> (k, u) ∈ users ->
    exists uo r', userObjs h !! u = Some uo /\ chatRoom uo = Some r' /\
                  is_Some (rooms h !! r').

(** A participant that sends back whatever it receives. *)
Definition echo : Receive := fun send _ message => send message.

(** How many lines of a log are dispatch lines of the room. *)
Definition dispatches (out : Log) : nat :=
  length (filter (fun e => String.prefix "ChatRoom: Dispatching" (fst e) = true) out).

(** Sample stores. *)
Definition empty_store : Store := ({| userObjs := []; rooms := [] |}, []).

(** Two users of one room. *)
Definition room_of_two (a b : string) : Eff Store unit :=
  let! room := ChatRoom_new in
  let! ua := ChatUser_new a in
  let! ub := ChatUser_new b in
  ChatRoom_register room ua;;
  ChatRoom_register room ub.

Definition heap_after (m : Eff Store unit) : Heap := fst (fst (m empty_store)).

(** *** Rooms of chat users *)

(** The [receive] of the user objects of the file: every object is a
    [ChatUser] and logs under its own name. *)
Definition chat_users (h : Heap) (u : addr) : Receive :=
  ChatUser_receive (default "" (getName h u)).

(** The line [ChatUser.receive] logs. *)
Definition received_line (me sender message : string) : LogEntry :=
  (me +:+ " received message from " +:+ sender +:+ ": " +:+ message, INFO).

(** What a client does to set up users and rooms. *)
Inductive Setup :=
| NewUser (n : string)
| NewRoom
| Register (room user : addr).

Definition setup_step (op : Setup) : Eff Store unit :=
  match op with
  | NewUser n => ChatUser_new n;; ret tt
  | NewRoom => ChatRoom_new;; ret tt
  | Register room user => ChatRoom_register room user
  end.

Fixpoint setup (ops : list Setup) : Eff Store unit :=
  match ops with
  | [] => ret tt
  | op :: ops' => setup_step op;; setup ops'
  end.

(** Every room files each of its users under the user's own name, and
    no name twice. *)
Definition filed (h : Heap) : Prop :=
  forall r users,
    rooms h !! r = Some users ->
    NoDup (map fst users) /\
    forall k u, (k, u) ∈ users -> getName h u = Some k.

(** *** Chains of sends *)

(** A call that runs out of call stack only after the rooms have
    dispatched [n] more times. *)
Definition nested (n : nat) (m : Eff Log unit) : Prop :=
  forall out, snd (m out) = Overrun -> dispatches out + n <= dispatches (fst (m out)).

(** A [receive] method that runs out of call stack only where its own
    [send] does. *)
Definition relays (r : Receive) : Prop :=
  forall n send sender message,
    (forall m, gentle (send m) /\ nested n (send m)) ->
    nested n (r send sender message).

End Med.

(** ** Flyweight: [FlyweightFactory] *)

Module Fly.

(** Flyweight objects are referred to by address. *)
Abbreviation addr := nat (only parsing).

(** The factory object: [flyweights], an object used as a map from
    keys to flyweight objects (its own properties), and the flyweight
    objects created so far, each with its [sharedState]. *)
Record Factory := {
  flyweights : gmap string addr;
  objs : list (list string)
}.

Definition Store : Type := Factory * Log.

Definition log (msg : string) (t : LogType) : Eff Store unit :=
  modify (fun s => (fst s, snd s ++ [(msg, t)])).

(** [getKey(state)]: [state.join('_')] *)
Definition getKey (state : list string) : string := String.concat "_" state.

(** [new Flyweight(sharedState)]; the state array is taken by value
    (the callers in the file pass array literals). *)
Definition Flyweight_new (sharedState : list string) : Eff Store addr :=
  fun s =>
    (({| flyweights := flyweights (fst s); objs := objs (fst s) ++ [sharedState] |},
      snd s),
     Normal (length (objs (fst s)))).

(** [this.flyweights[key] = flyweight], for a key that is not the name
    of an inherited property. *)
Definition set_flyweight (key : string) (a : addr) : Eff Store unit :=
  modify (fun s =>
    ({| flyweights := <[key := a]> (flyweights (fst s)); objs := objs (fst s) |},
     snd s)).

(** What [this.flyweights[key]] evaluates to: a flyweight of the
    factory, or something that is none (an inherited member, or
    [undefined]). *)
Inductive Found :=
| AFlyweight (a : addr)
| NotAFlyweight.

Definition read (key : string) (f : Factory) : Found :=
  match flyweights f !! key with
  | Some a => AFlyweight a
  | None => NotAFlyweight
  end.

(** [Object.keys(this.flyweights).length] *)
Definition count (f : Factory) : nat := size (flyweights f).

Section Factory.

(** The property names every object inherits from [Object.prototype]
    ([toString], [constructor], ...), which the [in] operator also
    finds; the set belongs to the runtime. *)
Variable inherited : string -> bool.

(** [key in this.flyweights] *)
Definition key_in (key : string) (f : Factory) : bool :=
  bool_decide (is_Some (flyweights f !! key)) || inherited key.

(** [getFlyweight(sharedState)] *)
Definition getFlyweight (sharedState : list string) : Eff Store Found :=
  let key := getKey sharedState in
  let! s := get in
  (if negb (key_in key (fst s)) then
     log "FlyweightFactory: Can't find a flyweight, creating new one." INFO;;
     let! a := Flyweight_new sharedState in
     set_flyweight key a
   else
     log "FlyweightFactory: Reusing existing flyweight." INFO);;
  let! s' := get in
  ret (read key (fst s')).

(** The inherited names that an assignment does not shadow with a
    property of the object's own: [__proto__], which [Object.prototype]
    defines with a setter.  This set, too, belongs to the runtime.
    Being inherited, these names pass the [in] test, so [getFlyweight]
    never assigns to them; only the constructor can. *)
Variable accessor : string -> bool.

(** [new FlyweightFactory(initialFlyweights)]: each initial state gets
    a new flyweight, assigned to [this.flyweights[key]] (over an earlier
    one with the same key).  The assignment makes a property of the
    object's own, also when the key is the name of an inherited method
    such as [toString].  Only for a key in [accessor] it runs the
    inherited setter instead, which for [__proto__] replaces the
    prototype of [flyweights]; such a factory is not described by
    [Factory], and the constructor's model answers [None] there. *)
Fixpoint fill (initialFlyweights : list (list string)) (f : Factory) : option Factory :=
  match initialFlyweights with
  | [] => Some f
  | state :: rest =>
      if accessor (getKey state) then None
      else
        fill rest
          {| flyweights := <[getKey state := length (objs f)]> (flyweights f);
             objs := objs f ++ [state] |}
  end.

Definition FlyweightFactory_new (initialFlyweights : list (list string))
  : option Factory :=
  fill initialFlyweights {| flyweights := ∅; objs := [] |}.

(** A sequence of [getFlyweight] calls. *)
Fixpoint getFlyweights (states : list (list string)) : Eff Store unit :=
  match states with
  | [] => ret tt
  | state :: rest => getFlyweight state;; getFlyweights rest
  end.

End Factory.

(** Every flyweight is filed under the key of its own shared state. *)
Definition keyed (f : Factory) : Prop :=
  forall key a,
    flyweights f !! key = Some a ->
    exists state, objs f !! a = Some state /\ getKey state = key.

(** The keys of [states] that are not inherited names. *)
Definition own_keys (inherited : string -> bool) (states : list (list string))
  : gset string :=
  list_to_set (filter (fun key => inherited key = false) (map getKey states)).

(** The names [Object.prototype] defines in a standard runtime, the
    one among them that has a setter, and the factory of the file. *)
Definition sample_inherited (key : string) : bool :=
  bool_decide (key ∈ ["constructor"; "toString"; "valueOf"; "hasOwnProperty";
                      "isPrototypeOf"; "propertyIsEnumerable"; "toLocaleString";
                      "__proto__"; "__defineGetter__"; "__defineSetter__";
                      "__lookupGetter__"; "__lookupSetter__"]).

Definition sample_accessor (key : string) : bool :=
  bool_decide (key = "__proto__").

Definition cars : list (list string) :=
  [["Chevrolet"; "Camaro2018"; "pink"];
   ["Mercedes Benz"; "C300"; "black"];
   ["Mercedes Benz"; "C500"; "red"];
   ["BMW"; "M5"; "red"];
   ["BMW"; "X6"; "white"]].

End Fly.

(** * Properties *)

(** ** The invoker's history *)

Module CmdFacts.
Import Cmd.

Lemma set_history_same (inv : Invoker) : set_history (history inv) inv = inv.
Proof. destruct inv; reflexivity. Qed.

Lemma nonempty_snoc {A} (l : list A) : l <> [] -> exists rest x, l = rest ++ [x].
Proof.
  intros Hne. destruct (exists_last Hne) as (rest & x & ->). eauto.
Qed.

Lemma pop_snoc (inv : Invoker) (out : Log) (rest : list Command) (c : Command) :
  history inv = rest ++ [c] ->
  pop (inv, out) = ((set_history rest inv, out), Normal (Some c)).
Proof.
  intros H. unfold pop; simpl. rewrite H, removelast_last, last_snoc. reflexivity.
Qed.

Lemma pop_empty (inv : Invoker) (out : Log) :
  history inv = [] -> pop (inv, out) = ((inv, out), Normal None).
Proof.
  intros H. unfold pop; simpl. rewrite H; simpl.
  rewrite <- H, set_history_same. reflexivity.
Qed.

(** What [if (c) { c.execute(); this.history.push(c); }] does, by the
    way [execute] ends. *)
Lemma apply_slot_some (c : Command) (inv : Invoker) (out : Log) :
  apply_slot (Some c) (inv, out) =
    match execute c out with
    | (out', Normal _) => ((set_history (history inv ++ [c]) inv, out'), Normal tt)
    | (out', Throw e) => ((inv, out'), Throw e)
    | (out', Overrun) => ((inv, out'), Overrun)
    end.
Proof.
  unfold apply_slot, bind, run, push, modify; simpl.
  destruct (execute c out) as [out' [[]|e|]]; reflexivity.
Qed.

(** Case on how [execute c] ends at the log it is run on, using the
    fact [H] about every log. *)
Ltac run_execute c H :=
  match goal with
  | |- context [execute c ?o] =>
      let E := fresh "E" in
      let Hr := fresh "Hr" in
      let o' := fresh "o'" in
      let r := fresh "r" in
      destruct (execute c o) as [o' r] eqn:E;
      pose proof (H o) as Hr; rewrite E in Hr; simpl in Hr; subst r
  end.

(** C1.  On a history holding at least one command, [undo] takes off
    the last command pushed and nothing else: the history left is the
    old one without its last entry, in the same order, and it is that
    command's [undo] that runs (after the invoker's log line), its
    outcome being the outcome of the call. *)
Theorem undo_removes_top (inv : Invoker) (out : Log) :
  history inv <> [] ->
  exists rest c,
    history inv = rest ++ [c] /\
    Invoker_undo (inv, out) =
      (let '(out', r) := undo c (out ++ [("Invoker: Undoing last command", INFO)]) in
       ((set_history rest inv, out'), r)).
Proof.
  intros Hne. destruct (nonempty_snoc _ Hne) as (rest & c & Hh).
  exists rest, c. split; [exact Hh|].
  unfold Invoker_undo, bind. rewrite (pop_snoc _ _ _ _ Hh).
  unfold say, run, log, modify; simpl.
  destruct (undo c _) as [out' r]. destruct r; reflexivity.
Qed.

Lemma undo_removes_top_witness :
  history (fst after_demo) <> [] /\
  exists rest c,
    history (fst after_demo) = rest ++ [c] /\
    Invoker_undo after_demo =
      (let '(out', r) :=
         undo c (snd after_demo ++ [("Invoker: Undoing last command", INFO)]) in
       ((set_history rest (fst after_demo), out'), r)).
Proof.
  assert (H : history (fst after_demo) <> []) by (vm_compute; discriminate).
  split; [exact H|].
  exact (undo_removes_top (fst after_demo) (snd after_demo) H).
Defined.

(** C2, as stated, fails: a command whose [execute] throws the value
    ["disk full"] makes [doSomethingImportant] end with that very value,
    not with [CommandFailed]. *)
Lemma thrown_value_is_not_CommandFailed :
  let inv := setOnStart (failing "disk full") Invoker_new in
  snd (doSomethingImportant (inv, [])) = Throw (Thrown "disk full") /\
  snd (doSomethingImportant (inv, [])) <> Throw CommandFailed.
Proof. simpl. split; [reflexivity|discriminate]. Qed.

(** C2, amended.  When [execute] of a command throws, that command is
    not pushed and the thrown value reaches the caller as it is.  If it
    is the [onStart] command, the invoker is left as it was; if it is
    the [onFinish] command, the history holds, besides the old entries,
    the [onStart] command that had completed before it (if one is set). *)
Theorem throwing_command_is_not_pushed
    (inv : Invoker) (out : Log) (c : Command) (e : Exn) :
  (forall o, snd (execute c o) = Throw e) ->
  (onStart inv = Some c ->
   exists out', doSomethingImportant (inv, out) = ((inv, out'), Throw e)) /\
  (onFinish inv = Some c -> onStart inv = None ->
   exists out', doSomethingImportant (inv, out) = ((inv, out'), Throw e)) /\
  (onFinish inv = Some c ->
   forall c1, onStart inv = Some c1 -> (forall o, snd (execute c1 o) = Normal tt) ->
   exists out',
     doSomethingImportant (inv, out) =
       ((set_history (history inv ++ [c1]) inv, out'), Throw e)).
Proof.
  intros Hc. repeat split.
  - intros Hs. unfold doSomethingImportant.
    unfold bind at 1. unfold say at 1, run, log, modify; simpl.
    unfold bind at 1, get; simpl. rewrite Hs.
    unfold bind at 1. rewrite apply_slot_some.
    run_execute c Hc. eauto.
  - intros Hf Hs. unfold doSomethingImportant, bind, say, run, log, modify, get; simpl.
    rewrite Hs; simpl. rewrite Hf.
    match goal with |- context [apply_slot (Some c) (?i, ?o)] =>
      rewrite (apply_slot_some c i o) end.
    run_execute c Hc. eauto.
  - intros Hf c1 Hs H1.
    unfold doSomethingImportant.
    unfold bind at 1. unfold say at 1, run, log, modify; simpl.
    unfold bind at 1, get; simpl. rewrite Hs.
    unfold bind at 1. rewrite apply_slot_some.
    run_execute c1 H1.
    unfold bind, say, run, log, modify, get; simpl. rewrite Hf.
    match goal with |- context [apply_slot (Some c) (?i, ?o)] =>
      rewrite (apply_slot_some c i o) end.
    run_execute c Hc.
    simpl. eauto.
Qed.

Lemma throwing_command_is_not_pushed_witness :
  let bad := failing "disk full" in
  let hi := SimpleCommand "Say Hi!" in
  (forall o, snd (execute bad o) = Throw (Thrown "disk full")) /\
  (forall o, snd (execute hi o) = Normal tt) /\
  (exists out',
     doSomethingImportant (setOnStart bad Invoker_new, []) =
       ((setOnStart bad Invoker_new, out'), Throw (Thrown "disk full"))) /\
  (exists out',
     doSomethingImportant (setOnFinish bad Invoker_new, []) =
       ((setOnFinish bad Invoker_new, out'), Throw (Thrown "disk full"))) /\
  (exists out',
     doSomethingImportant (setOnFinish bad (setOnStart hi Invoker_new), []) =
       ((set_history [hi] (setOnFinish bad (setOnStart hi Invoker_new)), out'),
        Throw (Thrown "disk full"))).
Proof.
  intros bad hi.
  assert (H : forall o, snd (execute bad o) = Throw (Thrown "disk full"))
    by (intros o; reflexivity).
  assert (H1 : forall o, snd (execute hi o) = Normal tt)
    by (intros o; reflexivity).
  refine (conj H (conj H1 (conj _ (conj _ _)))).
  - exact (proj1 (throwing_command_is_not_pushed
                    (setOnStart bad Invoker_new) [] bad (Thrown "disk full") H)
             eq_refl).
  - exact (proj1 (proj2 (throwing_command_is_not_pushed
                           (setOnFinish bad Invoker_new) [] bad (Thrown "disk full") H))
             eq_refl eq_refl).
  - exact (proj2 (proj2 (throwing_command_is_not_pushed
                           (setOnFinish bad (setOnStart hi Invoker_new)) [] bad
                           (Thrown "disk full") H))
             eq_refl hi eq_refl H1).
Defined.

(** When both commands complete, both are pushed, in the order they ran. *)
Lemma completed_commands_are_pushed (inv : Invoker) (out : Log) (c1 c2 : Command) :
  onStart inv = Some c1 -> onFinish inv = Some c2 ->
  (forall o, snd (execute c1 o) = Normal tt) ->
  (forall o, snd (execute c2 o) = Normal tt) ->
  exists out',
    doSomethingImportant (inv, out) =
      ((set_history (history inv ++ [c1; c2]) inv, out'), Normal tt).
Proof.
  intros Hs Hf H1 H2.
  unfold doSomethingImportant.
  unfold bind at 1. unfold say at 1, run, log, modify; simpl.
  unfold bind at 1, get; simpl. rewrite Hs.
  unfold bind at 1. rewrite apply_slot_some.
  run_execute c1 H1.
  unfold bind, say, run, log, modify, get; simpl. rewrite Hf.
  match goal with |- context [apply_slot (Some c2) (?i, ?o)] =>
    rewrite (apply_slot_some c2 i o) end.
  run_execute c2 H2.
  simpl. rewrite <- app_assoc. simpl. eauto.
Qed.

(** C3, as stated, fails: [undo] on a new invoker returns normally; it
    throws nothing, and it writes a line to the log. *)
Lemma undo_on_empty_does_not_throw :
  Invoker_undo (Invoker_new, []) =
    ((Invoker_new, [("Invoker: No commands to undo", INFO)]), Normal tt) /\
  ~ thrown (snd (Invoker_undo (Invoker_new, []))).
Proof.
  split; [reflexivity|]. intros [e He]. discriminate He.
Qed.

(** C3, amended.  On an empty history [undo] returns normally: the
    invoker is left exactly as it was, no command is run, and the only
    effect is the log line "Invoker: No commands to undo". *)
Theorem undo_on_empty_history (inv : Invoker) (out : Log) :
  history inv = [] ->
  Invoker_undo (inv, out) =
    ((inv, out ++ [("Invoker: No commands to undo", INFO)]), Normal tt).
Proof.
  intros H. unfold Invoker_undo, bind. rewrite (pop_empty _ _ H). reflexivity.
Qed.

Lemma undo_on_empty_history_witness :
  history Invoker_new = [] /\
  Invoker_undo (Invoker_new, []) =
    ((Invoker_new, [] ++ [("Invoker: No commands to undo", INFO)]), Normal tt).
Proof.
  split; [reflexivity|].
  exact (undo_on_empty_history Invoker_new [] eq_refl).
Defined.

End CmdFacts.

(** ** The subject's observers *)

Module ObsFacts.
Import Obs.

Lemma includes_elem (o : ObsId) (l : list ObsId) :
  includes o l = true <-> o ∈ l.
Proof.
  unfold includes. rewrite existsb_exists. split.
  - intros (x & Hin & Heq). apply Nat.eqb_eq in Heq. subst x.
    by apply list_elem_of_In.
  - intros Hin. exists o. split; [by apply list_elem_of_In|apply Nat.eqb_refl].
Qed.

Lemma includes_not_elem (o : ObsId) (l : list ObsId) :
  includes o l = false <-> o ∉ l.
Proof.
  rewrite <- includes_elem. destruct (includes o l); split; congruence.
Qed.

Lemma indexOf_None (o : ObsId) (l : list ObsId) :
  indexOf o l = None <-> o ∉ l.
Proof.
  induction l as [|x l IH]; simpl.
  - split; [intros _; apply not_elem_of_nil|done].
  - rewrite not_elem_of_cons. destruct (Nat.eqb_spec o x) as [->|Hne].
    + split; [discriminate|intros [? _]; done].
    + destruct (indexOf o l); simpl.
      * split; [discriminate|]. intros [_ Hn]. apply IH in Hn. discriminate.
      * split; [|done]. intros _. split; [done|]. by apply IH.
Qed.

Lemma filter_absent (o : ObsId) (l : list ObsId) :
  o ∉ l -> filter (fun x => x <> o) l = l.
Proof.
  induction l as [|x l IH]; intros Hn; [reflexivity|].
  apply not_elem_of_cons in Hn as [Hne Hn].
  rewrite filter_cons_True by congruence. f_equal. by apply IH.
Qed.

(** Under [NoDup], taking out the first occurrence takes out all. *)
Lemma delete_indexOf (o : ObsId) (l : list ObsId) (i : nat) :
  NoDup l -> indexOf o l = Some i ->
  delete i l = filter (fun x => x <> o) l.
Proof.
  revert i. induction l as [|x l IH]; intros i Hnd Hi; simpl in *; [discriminate|].
  apply NoDup_cons in Hnd as [Hx Hnd].
  destruct (Nat.eqb_spec o x) as [->|Hne].
  - injection Hi as <-. simpl.
    rewrite filter_cons_False by (intros H; by apply H).
    symmetry. by apply filter_absent.
  - destruct (indexOf o l) as [j|] eqn:Hj; simpl in Hi; [|discriminate].
    injection Hi as <-. simpl.
    rewrite filter_cons_True by congruence.
    f_equal. by apply IH.
Qed.

(** An element of a duplicate-free list occurs in it once. *)
Lemma NoDup_count_one (o : ObsId) (l : list ObsId) :
  NoDup l -> o ∈ l -> count_occ Nat.eq_dec l o = 1.
Proof.
  induction l as [|x l IH]; intros Hnd Hin.
  - by apply elem_of_nil in Hin.
  - apply NoDup_cons in Hnd as [Hx Hnd]. simpl.
    destruct (Nat.eq_dec x o) as [->|Hne].
    + f_equal. apply count_occ_not_In. by rewrite <- list_elem_of_In.
    + apply elem_of_cons in Hin as [->|Hin]; [done|]. by apply IH.
Qed.

(** *** [attach] and [detach] *)

Lemma attach_present (o : ObsId) (s : Store) :
  o ∈ observers s ->
  attach o s =
    ({| state := state s; observers := observers s;
        out := out s ++ [("Subject: Observer has been attached already.", DEBUG)] |},
     Normal tt).
Proof.
  intros Hin. apply includes_elem in Hin.
  unfold attach, bind, get. rewrite Hin. reflexivity.
Qed.

Lemma attach_absent (o : ObsId) (s : Store) :
  o ∉ observers s ->
  attach o s =
    ({| state := state s; observers := observers s ++ [o];
        out := out s ++ [("Subject: Attached an observer.", INFO)] |},
     Normal tt).
Proof.
  intros Hin. apply includes_not_elem in Hin.
  unfold attach, bind, get. rewrite Hin. reflexivity.
Qed.

Lemma detach_absent (o : ObsId) (s : Store) :
  o ∉ observers s ->
  detach o s =
    ({| state := state s; observers := observers s;
        out := out s ++ [("Subject: Nonexistent observer.", ERROR)] |},
     Normal tt).
Proof.
  intros Hin. apply indexOf_None in Hin.
  unfold detach, bind, get. rewrite Hin. reflexivity.
Qed.

Lemma detach_present (o : ObsId) (s : Store) :
  NoDup (observers s) -> o ∈ observers s ->
  detach o s =
    ({| state := state s; observers := filter (fun x => x <> o) (observers s);
        out := out s ++ [("Subject: Detached an observer.", INFO)] |},
     Normal tt).
Proof.
  intros Hnd Hin.
  destruct (indexOf o (observers s)) as [i|] eqn:Hi.
  - unfold detach, bind, get. rewrite Hi.
    unfold set_observers, log, modify; simpl.
    by rewrite (delete_indexOf _ _ _ Hnd Hi).
  - apply indexOf_None in Hi. done.
Qed.

(** What one subscription request does to the subscriber list. *)
Lemma do_op_observers (op : Op) (s : Store) :
  NoDup (observers s) ->
  snd (do_op op s) = Normal tt /\
  state (fst (do_op op s)) = state s /\
  observers (fst (do_op op s)) =
    match op with
    | Attach o => if decide (o ∈ observers s) then observers s else observers s ++ [o]
    | Detach o => filter (fun x => x <> o) (observers s)
    end.
Proof.
  intros Hnd. destruct op as [o|o]; simpl.
  - destruct (decide (o ∈ observers s)) as [Hin|Hin].
    + by rewrite (attach_present _ _ Hin).
    + by rewrite (attach_absent _ _ Hin).
  - destruct (decide (o ∈ observers s)) as [Hin|Hin].
    + by rewrite (detach_present _ _ Hnd Hin).
    + rewrite (detach_absent _ _ Hin). simpl.
      by rewrite (filter_absent _ _ Hin).
Qed.

Lemma do_op_NoDup (op : Op) (s : Store) :
  NoDup (observers s) -> NoDup (observers (fst (do_op op s))).
Proof.
  intros Hnd. destruct (do_op_observers op s Hnd) as (_ & _ & ->).
  destruct op as [o|o].
  - destruct (decide (o ∈ observers s)) as [Hin|Hin]; [done|].
    apply NoDup_app. repeat split; [done| |apply NoDup_singleton].
    intros x Hx Hx'. apply list_elem_of_singleton in Hx'. by subst x.
  - by apply NoDup_filter.
Qed.

(** The list [attach] and [detach] build is the list of registered
    listeners in subscription order. *)
Lemma observers_registered (ops : list Op) (s : Store) :
  NoDup (observers s) ->
  snd (do_ops ops s) = Normal tt /\
  NoDup (observers (fst (do_ops ops s))) /\
  observers (fst (do_ops ops s)) = registered_after (observers s) ops.
Proof.
  revert s. induction ops as [|op ops IH]; intros s Hnd; simpl.
  - done.
  - unfold bind.
    destruct (do_op_observers op s Hnd) as (Hr & _ & Ho).
    pose proof (do_op_NoDup op s Hnd) as Hnd'.
    destruct (do_op op s) as [s1 r]; simpl in *. subst r.
    destruct (IH s1 Hnd') as (Hr' & Hnd'' & Ho').
    repeat split; [done..|].
    rewrite Ho', Ho. destruct op; reflexivity.
Qed.

(** *** [notify] *)

Section Delivery.

Variable update : ObsId -> Handler.

Lemma notify_from_eq (fuel i : nat) (w : World) :
  notify_from update fuel i w =
    match observers (fst w) !! i with
    | None => (w, Normal tt)
    | Some o =>
        match fuel with
        | 0 => (w, Overrun)
        | S fuel' => (call update o;; notify_from update fuel' (S i)) w
        end
    end.
Proof.
  destruct fuel; simpl; unfold bind at 1, get;
    destruct (observers (fst w) !! i); reflexivity.
Qed.

(** A stretch [mid] of the array whose handlers return and leave the
    array alone is delivered to one by one, in order. *)
Lemma notify_from_stretch (mid : list ObsId) :
  forall (before after : list ObsId) (fuel : nat) (s : Store) (calls : list ObsId),
    observers s = before ++ mid ++ after ->
    (forall o, o ∈ mid -> returns (update o) /\ steady (update o)) ->
    exists s',
      observers s' = observers s /\
      notify_from update (length mid + fuel) (length before) (s, calls) =
      notify_from update fuel (length before + length mid) (s', calls ++ mid).
Proof.
  induction mid as [|o mid IH]; intros before after fuel s calls Hobs Hh.
  - exists s. simpl. by rewrite Nat.add_0_r, app_nil_r.
  - rewrite notify_from_eq. simpl fst. simpl in Hobs.
    rewrite Hobs, list_lookup_middle by reflexivity. simpl length. simpl Nat.add.
    destruct (Hh o) as [Hret Hst]; [by left|].
    unfold bind at 1, call. simpl fst. simpl snd.
    specialize (Hret s). specialize (Hst s).
    destruct (update o s) as [s1 r]; simpl in Hret, Hst. subst r.
    destruct (IH (before ++ [o]) after fuel s1 (calls ++ [o])) as (s' & Hs' & Heq).
    + rewrite Hst, Hobs. by rewrite <- app_assoc.
    + intros x Hx. apply Hh. by right.
    + exists s'. split; [congruence|].
      rewrite length_app in Heq. simpl in Heq.
      rewrite Nat.add_1_r in Heq. rewrite Heq.
      rewrite <- app_assoc. simpl.
      by rewrite Nat.add_succ_r.
Qed.

Lemma notify_log (fuel : nat) (s : Store) (calls : list ObsId) :
  notify update fuel (s, calls) =
    notify_from update fuel 0
      ({| state := state s; observers := observers s;
          out := out s ++ [("Subject: Notifying observers...", INFO)] |}, calls).
Proof. reflexivity. Qed.

(** When every registered handler returns and leaves the array alone,
    [notify] calls exactly the registered observers, in array order. *)
Lemma notify_all (fuel : nat) (s : Store) (calls : list ObsId) :
  (forall o, o ∈ observers s -> returns (update o) /\ steady (update o)) ->
  length (observers s) <= fuel ->
  exists s',
    observers s' = observers s /\
    notify update fuel (s, calls) = ((s', calls ++ observers s), Normal tt).
Proof.
  intros Hh Hfuel. rewrite notify_log.
  set (s0 := {| state := state s; observers := observers s;
                out := out s ++ [("Subject: Notifying observers...", INFO)] |}).
  destruct (notify_from_stretch (observers s) [] [] (fuel - length (observers s)) s0 calls)
    as (s' & Hs' & Heq); [by rewrite app_nil_r|done|].
  exists s'. split; [done|].
  replace (length (observers s) + (fuel - length (observers s))) with fuel in Heq by lia.
  simpl length in Heq. rewrite Heq.
  rewrite notify_from_eq. simpl fst. rewrite Hs'. simpl.
  by rewrite lookup_ge_None_2.
Qed.


End Delivery.

(** *** The sample observers *)

Lemma ConcreteObserverB_returns : returns ConcreteObserverB.
Proof.
  intros s. unfold ConcreteObserverB, bind, get.
  destruct (state s) as [n|]; [|reflexivity].
  destruct ((n =? 0) || (2 <=? n))%Z; reflexivity.
Qed.

Lemma ConcreteObserverB_steady : steady ConcreteObserverB.
Proof.
  intros s. unfold ConcreteObserverB, bind, get.
  destruct (state s) as [n|]; [|reflexivity].
  destruct ((n =? 0) || (2 <=? n))%Z; reflexivity.
Qed.

Lemma ConcreteObserverA_returns : returns ConcreteObserverA.
Proof.
  intros s. unfold ConcreteObserverA, bind, get.
  destruct (state s) as [n|]; [|reflexivity].
  destruct (n <? 5)%Z; reflexivity.
Qed.

Lemma ConcreteObserverA_steady : steady ConcreteObserverA.
Proof.
  intros s. unfold ConcreteObserverA, bind, get.
  destruct (state s) as [n|]; [|reflexivity].
  destruct (n <? 5)%Z; reflexivity.
Qed.

Lemma update_demo_behaves (o : ObsId) :
  returns (update_demo o) /\ steady (update_demo o).
Proof.
  destruct o as [|[|o]]; simpl;
    auto using ConcreteObserverA_returns, ConcreteObserverA_steady,
               ConcreteObserverB_returns, ConcreteObserverB_steady.
Qed.

Lemma new_subject_NoDup (o : Log) : NoDup (observers (ConcreteSubject_new o)).
Proof. apply NoDup_nil_2. Qed.



(** C5, as stated, fails: observers 1, 2 and 3 are registered when
    [notify] is called and no handler throws, but the handler of 1
    detaches 2, and [notify], which reads the array as it goes, calls 1
    and 3 only. *)
Lemma detached_during_notify_is_skipped :
  let s := fst (do_ops [Attach 1; Attach 2; Attach 3] (ConcreteSubject_new [])) in
  let r := notify update_detaching 3 (s, []) in
  observers s = [1; 2; 3] /\
  snd r = Normal tt /\
  snd (fst r) = [1; 3].
Proof. vm_compute. auto. Qed.

(** C5, amended.  After any sequence of [attach] and [detach] calls on
    a new subject the array holds the registered observers in the order
    in which they subscribed.  If the handlers of these observers return
    and do not themselves attach or detach, [notify] calls exactly these
    observers, in that order, and returns.  An observer attached
    afterwards is put at the end of the array and is not called for the
    notification already made: attaching calls no handler. *)
Theorem notify_calls_registered_in_order
    (update : ObsId -> Handler) (ops : list Op) (out0 : Log)
    (fuel : nat) (calls : list ObsId) :
  (forall o, o ∈ registered ops -> returns (update o) /\ steady (update o)) ->
  length (registered ops) <= fuel ->
  let s := fst (do_ops ops (ConcreteSubject_new out0)) in
  observers s = registered ops /\
  exists s',
    notify update fuel (s, calls) = ((s', calls ++ registered ops), Normal tt) /\
    observers s' = registered ops /\
    forall late, late ∉ registered ops ->
      let w := fst (lift (attach late) (s', calls ++ registered ops)) in
      snd w = calls ++ registered ops /\
      observers (fst w) = registered ops ++ [late].
Proof.
  intros Hh Hfuel s.
  destruct (observers_registered ops (ConcreteSubject_new out0) (new_subject_NoDup out0))
    as (_ & _ & Hobs).
  fold s in Hobs. change (registered_after _ ops) with (registered ops) in Hobs.
  split; [exact Hobs|].
  destruct (notify_all update fuel s calls) as (s' & Hs' & Heq).
  - rewrite Hobs. exact Hh.
  - rewrite Hobs. exact Hfuel.
  - exists s'. rewrite Hobs in Heq, Hs'. repeat split; [exact Heq|exact Hs'|..].
    + unfold lift. simpl. by destruct (attach late s').
    + unfold lift. simpl. rewrite attach_absent by (by rewrite Hs').
      simpl. by rewrite Hs'.
Qed.

Lemma notify_calls_registered_in_order_witness :
  let ops := [Attach 1; Attach 2; Attach 1; Detach 1; Attach 3; Attach 1] in
  (forall o, o ∈ registered ops -> returns (update_demo o) /\ steady (update_demo o)) /\
  length (registered ops) <= 3 /\
  registered ops = [2; 3; 1] /\
  exists s',
    notify update_demo 3 (fst (do_ops ops (ConcreteSubject_new [])), []) =
      ((s', [] ++ registered ops), Normal tt).
Proof.
  intros ops.
  assert (H1 : forall o, o ∈ registered ops ->
            returns (update_demo o) /\ steady (update_demo o))
    by (intros o _; apply update_demo_behaves).
  assert (H2 : length (registered ops) <= 3) by (vm_compute; lia).
  refine (conj H1 (conj H2 (conj eq_refl _))).
  destruct (notify_calls_registered_in_order update_demo ops [] 3 [] H1 H2)
    as (_ & s' & Heq & _).
  exists s'. exact Heq.
Defined.

(** C6, as stated, fails: observer 2 is attached twice and the array
    holds it once, yet a notification that follows need not reach it
    exactly once.  When the handler of observer 1, called before it,
    throws, observer 2 is not called at all; and when its own handler
    detaches and re-attaches it, [notify], which reads the array as it
    goes, finds it again at the next index and calls it twice (and
    observer 1 never), returning normally. *)
Lemma twice_attached_is_not_called_once :
  let s := fst (do_ops [Attach 1; Attach 2; Attach 2] (ConcreteSubject_new [])) in
  let r0 := notify update_faulty_first 3 (s, []) in
  let s' := fst (do_ops [Attach 2; Attach 2; Attach 1] (ConcreteSubject_new [])) in
  let r2 := notify update_reattaching 3 (s', []) in
  (observers s = [1; 2] /\
   count_occ Nat.eq_dec (snd (fst r0)) 2 = 0 /\
   snd r0 = Throw (Thrown "listener failed")) /\
  (observers s' = [2; 1] /\
   snd (fst r2) = [2; 2] /\
   count_occ Nat.eq_dec (snd (fst r2)) 2 = 2 /\
   snd r2 = Normal tt).
Proof. vm_compute. auto 10. Qed.

(** C6, amended.  Attaching an observer that is already attached
    changes nothing in the subject: the array after the second [attach]
    is the array after the first, and it holds the observer once.  A
    [notify] that follows calls each entry of that array once, so this
    observer once, provided the handlers of the attached observers return
    and do not attach or detach while notified. *)
Theorem attach_twice_is_idempotent (s : Store) (o : ObsId) :
  NoDup (observers s) ->
  let s1 := fst (attach o s) in
  let s2 := fst (attach o s1) in
  snd (attach o s1) = Normal tt /\
  observers s2 = observers s1 /\
  state s2 = state s1 /\
  count_occ Nat.eq_dec (observers s2) o = 1 /\
  forall (update : ObsId -> Handler) (fuel : nat) (calls : list ObsId),
    (forall p, p ∈ observers s2 -> returns (update p) /\ steady (update p)) ->
    length (observers s2) <= fuel ->
    exists s' delivered,
      notify update fuel (s2, calls) = ((s', calls ++ delivered), Normal tt) /\
      count_occ Nat.eq_dec delivered o = 1.
Proof.
  intros Hnd s1 s2.
  assert (Hnd1 : NoDup (observers s1)) by exact (do_op_NoDup (Attach o) s Hnd).
  assert (Hin1 : o ∈ observers s1).
  { destruct (do_op_observers (Attach o) s Hnd) as (_ & _ & Ho).
    simpl in Ho. fold s1 in Ho. rewrite Ho.
    destruct (decide (o ∈ observers s)); [done|].
    apply elem_of_app. right. by apply list_elem_of_singleton. }
  assert (Hs2 : observers s2 = observers s1 /\ state s2 = state s1 /\
                snd (attach o s1) = Normal tt).
  { unfold s2. by rewrite (attach_present _ _ Hin1). }
  destruct Hs2 as (Ho2 & Hst2 & Hr2).
  assert (Hcount : count_occ Nat.eq_dec (observers s2) o = 1).
  { rewrite Ho2. by apply NoDup_count_one. }
  repeat split; [exact Hr2|exact Ho2|exact Hst2|exact Hcount|].
  intros update fuel calls Hh Hfuel.
  destruct (notify_all update fuel s2 calls Hh Hfuel) as (s' & _ & Heq).
  exists s', (observers s2). split; [exact Heq|exact Hcount].
Qed.

Lemma attach_twice_is_idempotent_witness :
  let s := fst (do_ops [Attach 1; Attach 2] (ConcreteSubject_new [])) in
  let s2 := fst (attach 2 (fst (attach 2 s))) in
  NoDup (observers s) /\
  (forall p, p ∈ observers s2 -> returns (update_demo p) /\ steady (update_demo p)) /\
  length (observers s2) <= 2 /\
  observers s2 = observers (fst (attach 2 s)) /\
  count_occ Nat.eq_dec (observers s2) 2 = 1 /\
  exists s' delivered,
    notify update_demo 2 (s2, []) = ((s', [] ++ delivered), Normal tt) /\
    count_occ Nat.eq_dec delivered 2 = 1.
Proof.
  intros s s2.
  assert (H : NoDup (observers s)).
  { apply (observers_registered [Attach 1; Attach 2] (ConcreteSubject_new [])).
    apply new_subject_NoDup. }
  assert (H1 : forall p, p ∈ observers s2 ->
            returns (update_demo p) /\ steady (update_demo p))
    by (intros p _; apply update_demo_behaves).
  assert (H2 : length (observers s2) <= 2) by (vm_compute; lia).
  destruct (attach_twice_is_idempotent s 2 H) as (_ & Ho & _ & Hc & Hn).
  refine (conj H (conj H1 (conj H2 (conj Ho (conj Hc _))))).
  exact (Hn update_demo 2 [] H1 H2).
Defined.

End ObsFacts.

(** ** Contexts, documents and their states *)

Module StFacts.
Import St.

(** Unfold the monad and the store primitives. *)
Ltac open_eff :=
  unfold bind, load, store, alloc, log, modify, ret, get, undefined_read, throw;
  simpl.

Lemma bind_normal {S A B} (m : Eff S A) (f : A -> Eff S B) (s s1 : S) (a : A) :
  m s = (s1, Normal a) -> bind m f s = f a s1.
Proof. intros H. unfold bind. by rewrite H. Qed.

Lemma lookup_snoc_old {A} (l : list A) (x y : A) (i : nat) :
  l !! i = Some y -> (l ++ [x]) !! i = Some y.
Proof.
  intros H. rewrite lookup_app_l; [done|]. by eapply lookup_lt_Some.
Qed.

Lemma lookup_snoc_new {A} (l : list A) (x : A) :
  (l ++ [x]) !! length l = Some x.
Proof. by apply list_lookup_middle. Qed.

Lemma lookup_insert_there {A} (l : list A) (i : nat) (x y : A) :
  l !! i = Some y -> <[i := x]> l !! i = Some x.
Proof.
  intros H. apply list_lookup_insert_eq. by eapply lookup_lt_Some.
Qed.

(** *** [Context] *)

Lemma Context_transitionTo_eq (s : Store) (this st : addr)
    (x y : option addr) (k : StateClass) :
  heap s !! this = Some (Context x) ->
  heap s !! st = Some (State k y) ->
  Context_transitionTo this st s =
    ({| heap := <[st := State k (Some this)]> (<[this := Context (Some st)]> (heap s));
        out := out s ++
          [("Context: Transitioning to " +:+ state_class_name k +:+ ".", INFO)] |},
     Normal tt).
Proof.
  intros Hthis Hst.
  assert (Hne : this <> st) by (intros ->; congruence).
  unfold Context_transitionTo, State_setContext. open_eff.
  rewrite Hst; simpl. rewrite Hthis; simpl.
  rewrite list_lookup_insert_ne by done. rewrite Hst; simpl. reflexivity.
Qed.

Lemma linked_after_transition (h : list Obj) (o : Log) (this st : addr)
    (x y : option addr) (k : StateClass) :
  h !! this = Some (Context x) ->
  h !! st = Some (State k y) ->
  context_linked
    {| heap := <[st := State k (Some this)]> (<[this := Context (Some st)]> h);
       out := o |} this.
Proof.
  intros Hthis Hst.
  assert (Hne : this <> st) by (intros ->; congruence).
  exists st, k. simpl. split.
  - rewrite list_lookup_insert_ne by done. by eapply lookup_insert_there.
  - eapply lookup_insert_there. by rewrite list_lookup_insert_ne.
Qed.

(** [transitionTo] on an existing context and state object returns
    and leaves the state object installed and referring back. *)
Lemma Context_transitionTo_links (s : Store) (this st : addr)
    (x y : option addr) (k : StateClass) :
  heap s !! this = Some (Context x) ->
  heap s !! st = Some (State k y) ->
  exists s',
    Context_transitionTo this st s = (s', Normal tt) /\
    context_linked s' this.
Proof.
  intros Hthis Hst. eexists. split.
  - by eapply Context_transitionTo_eq.
  - by eapply linked_after_transition.
Qed.

(** The same with a state object built for the occasion, as every
    caller in the file does. *)
Lemma transition_to_new_links (s : Store) (this : addr) (x : option addr)
    (c : StateClass) :
  heap s !! this = Some (Context x) ->
  exists s',
    (let! fresh := alloc (State c None) in Context_transitionTo this fresh) s
      = (s', Normal tt) /\
    context_linked s' this.
Proof.
  intros Hthis. unfold bind at 1, alloc.
  eapply Context_transitionTo_links; simpl.
  - by eapply lookup_snoc_old.
  - apply lookup_snoc_new.
Qed.

Lemma linked_log (s : Store) (o : Log) (c : addr) :
  context_linked s c -> context_linked {| heap := heap s; out := o |} c.
Proof. intros (st & k & H1 & H2). by exists st, k. Qed.

(** [new Context(state)] on an existing state object. *)
Lemma Context_new_links (s : Store) (st : addr) (k : StateClass) (y : option addr) :
  heap s !! st = Some (State k y) ->
  exists s',
    Context_new st s = (s', Normal (length (heap s))) /\
    context_linked s' (length (heap s)).
Proof.
  intros Hst. unfold Context_new. unfold bind at 1, alloc.
  destruct (Context_transitionTo_links
              {| heap := heap s ++ [Context None]; out := out s |}
              (length (heap s)) st None y k) as (s' & Heq & Hl); simpl.
  - apply lookup_snoc_new.
  - by eapply lookup_snoc_old.
  - exists s'. unfold bind. rewrite Heq. done.
Qed.

(** Each client operation on a linked context returns and leaves the
    context linked. *)
Lemma context_op_links (s : Store) (this : addr) (op : ContextOp) :
  context_linked s this ->
  exists s', context_op this op s = (s', Normal tt) /\ context_linked s' this.
Proof.
  intros (st & k & Hthis & Hst). destruct op as [c| |]; simpl.
  - by eapply transition_to_new_links.
  - unfold Context_request1, Context_state, State_handle1.
    unfold bind at 1. unfold bind at 1, load. rewrite Hthis. simpl.
    unfold bind at 1, load. rewrite Hst. simpl.
    destruct k.
    + unfold bind at 1, log, modify. unfold bind at 1. simpl.
      unfold via_context.
      eapply (transition_to_new_links {| heap := heap s; out := _ |}); simpl; eauto.
    + eexists. split; [reflexivity|]. apply linked_log. by exists st, ConcreteStateB.
  - unfold Context_request2, Context_state, State_handle2.
    unfold bind at 1. unfold bind at 1, load. rewrite Hthis. simpl.
    unfold bind at 1, load. rewrite Hst. simpl.
    destruct k.
    + eexists. split; [reflexivity|]. apply linked_log. by exists st, ConcreteStateA.
    + unfold bind at 1, log, modify. unfold bind at 1. simpl.
      unfold via_context.
      eapply (transition_to_new_links {| heap := heap s; out := _ |}); simpl; eauto.
Qed.

Lemma context_ops_links (ops : list ContextOp) (s : Store) (this : addr) :
  context_linked s this ->
  exists s', context_ops this ops s = (s', Normal tt) /\ context_linked s' this.
Proof.
  revert s. induction ops as [|op ops IH]; intros s Hl; simpl.
  - by exists s.
  - destruct (context_op_links s this op Hl) as (s1 & Heq & Hl1).
    destruct (IH s1 Hl1) as (s2 & Heq2 & Hl2).
    exists s2. unfold bind. by rewrite Heq.
Qed.

(** *** [Document] *)

Local Arguments doc_log : simpl never.
Local Arguments via_document : simpl never.

Lemma Document_changeState_eq (s : Store) (this cur st : addr) (n : string)
    (kc k : DocStateClass) (x y : option addr) :
  heap s !! this = Some (Document n (Some cur)) ->
  heap s !! cur = Some (DocumentState kc x) ->
  heap s !! st = Some (DocumentState k y) ->
  Document_changeState this st s =
    ({| heap := <[st := DocumentState k (Some this)]>
                  (<[this := Document n (Some st)]> (heap s));
        out := out s ++
          [("Document '" +:+ n +:+ "': Changing state from "
              +:+ doc_state_class_name kc +:+ " to " +:+ doc_state_class_name k,
            INFO)] |},
     Normal tt).
Proof.
  intros Hthis Hcur Hst.
  assert (Hne : this <> st) by (intros ->; congruence).
  unfold Document_changeState, Document_getName, Document_state,
    DocumentState_class, Document_set_state, DocumentState_setDocument.
  open_eff.
  rewrite Hthis; simpl. rewrite Hthis; simpl. rewrite Hcur; simpl.
  rewrite Hst; simpl. rewrite Hthis; simpl.
  rewrite (lookup_insert_there _ _ _ _ Hthis); simpl.
  rewrite list_lookup_insert_ne by done. rewrite Hst; simpl. reflexivity.
Qed.

Lemma document_linked_after_change (h : list Obj) (o : Log) (this st : addr)
    (n : string) (x y : option addr) (k : DocStateClass) :
  h !! this = Some (Document n x) ->
  h !! st = Some (DocumentState k y) ->
  document_linked
    {| heap := <[st := DocumentState k (Some this)]> (<[this := Document n (Some st)]> h);
       out := o |} this k.
Proof.
  intros Hthis Hst.
  assert (Hne : this <> st) by (intros ->; congruence).
  exists n, st. simpl. split.
  - rewrite list_lookup_insert_ne by done. by eapply lookup_insert_there.
  - eapply lookup_insert_there. by rewrite list_lookup_insert_ne.
Qed.

Lemma document_linked_log (s : Store) (o : Log) (d : addr) (k : DocStateClass) :
  document_linked s d k -> document_linked {| heap := heap s; out := o |} d k.
Proof. intros (n & st & H1 & H2). by exists n, st. Qed.

(** [changeState] with a state object built for the occasion. *)
Lemma change_to_new_links (s : Store) (this : addr) (k0 k : DocStateClass) :
  document_linked s this k0 ->
  exists s',
    (let! fresh := alloc (DocumentState k None) in Document_changeState this fresh) s
      = (s', Normal tt) /\
    document_linked s' this k.
Proof.
  intros (n & cur & Hthis & Hcur). unfold bind at 1, alloc.
  eexists. split.
  - eapply Document_changeState_eq; simpl.
    + by eapply lookup_snoc_old.
    + by eapply lookup_snoc_old.
    + apply lookup_snoc_new.
  - eapply document_linked_after_change.
    + by eapply lookup_snoc_old.
    + apply lookup_snoc_new.
Qed.

Lemma doc_log_eq (s : Store) (d : addr) (n : string) (x : option addr) (text : string) :
  heap s !! d = Some (Document n x) ->
  doc_log (Some d) text s =
    ({| heap := heap s;
        out := out s ++ [("Document '" +:+ n +:+ "': " +:+ text, INFO)] |},
     Normal tt).
Proof.
  intros Hd. unfold doc_log, Document_getName. open_eff. by rewrite Hd.
Qed.

(** [new Document(name)] returns a document linked to a draft state. *)
Lemma Document_new_links (s : Store) (n : string) :
  exists s',
    Document_new n s = (s', Normal (length (heap s))) /\
    document_linked s' (length (heap s)) DraftState.
Proof.
  unfold Document_new, Document_set_state, Document_state, DocumentState_setDocument.
  open_eff.
  rewrite lookup_snoc_old with (y := Document n None) by apply lookup_snoc_new.
  simpl.
  rewrite lookup_insert_there with (y := Document n None)
    by (eapply lookup_snoc_old, lookup_snoc_new).
  simpl.
  assert (Hne : length (heap s) <> length (heap s ++ [Document n None])).
  { rewrite length_app. simpl. lia. }
  rewrite list_lookup_insert_ne by done.
  rewrite lookup_snoc_new. simpl.
  eexists. split; [reflexivity|].
  eapply document_linked_log with (s := {| heap := _; out := out s |}).
  eapply document_linked_after_change.
  - eapply lookup_snoc_old, lookup_snoc_new.
  - apply lookup_snoc_new.
Qed.

(** The table [rule] is the table the state methods implement: on a
    linked document in a state of class [k], a request returns; where
    the table has an entry the document ends linked to a new state of
    that class, and where it has none the objects are left untouched. *)
Lemma rule_agrees (s : Store) (d : addr) (k : DocStateClass) (t : Trigger) :
  document_linked s d k ->
  exists s',
    Document_request t d s = (s', Normal tt) /\
    match rule k t with
    | Some k' => document_linked s' d k'
    | None => heap s' = heap s /\ exists line, out s' = out s ++ [(line, INFO)]
    end.
Proof.
  intros Hl. pose proof Hl as (n & cur & Hd & Hcur).
  assert (Hstate : Document_state d s = (s, Normal cur)).
  { unfold Document_state, bind, load. by rewrite Hd. }
  assert (Hload : load cur s = (s, Normal (DocumentState k (Some d)))).
  { unfold load. by rewrite Hcur. }
  destruct t, k; simpl;
    unfold Document_publish, Document_review, Document_reject,
      DocumentState_publish, DocumentState_review, DocumentState_reject;
    rewrite (bind_normal _ _ _ _ _ Hstate), (bind_normal _ _ _ _ _ Hload);
    repeat (erewrite bind_normal by (eapply doc_log_eq; simpl; eassumption));
    try (erewrite doc_log_eq by eassumption;
         eexists; split; [reflexivity|]; simpl; split; [reflexivity|];
         eexists; reflexivity);
    unfold via_document;
    eapply (change_to_new_links {| heap := heap s; out := _ |});
    eapply document_linked_log; eassumption.
Qed.

(** Each client operation on a linked document returns and leaves the
    document linked. *)
Lemma document_op_links (s : Store) (this : addr) (k : DocStateClass) (op : DocumentOp) :
  document_linked s this k ->
  exists s' k', document_op this op s = (s', Normal tt) /\ document_linked s' this k'.
Proof.
  intros Hl. destruct op as [c|t]; simpl.
  - destruct (change_to_new_links s this k c Hl) as (s' & Heq & Hl').
    by exists s', c.
  - destruct (rule_agrees s this k t Hl) as (s' & Heq & Hr).
    destruct (rule k t) as [k'|].
    + by exists s', k'.
    + exists s', k. split; [done|].
      destruct Hr as [Hh _]. destruct Hl as (n & st & H1 & H2).
      exists n, st. by rewrite Hh.
Qed.

Lemma document_ops_links (ops : list DocumentOp) (s : Store) (this : addr)
    (k : DocStateClass) :
  document_linked s this k ->
  exists s' k', document_ops this ops s = (s', Normal tt) /\ document_linked s' this k'.
Proof.
  revert s k. induction ops as [|op ops IH]; intros s k Hl; simpl.
  - by exists s, k.
  - destruct (document_op_links s this k op Hl) as (s1 & k1 & Heq & Hl1).
    destruct (IH s1 k1 Hl1) as (s2 & k2 & Heq2 & Hl2).
    exists s2, k2. unfold bind. by rewrite Heq.
Qed.

(** C7, as stated, fails: [reject] on a new document, in Draft state,
    for which no transition exists, returns normally; it throws nothing. *)
Lemma reject_in_draft_does_not_throw :
  let r := (let! d := Document_new "Article" in Document_reject d) empty_store in
  rule DraftState Reject = None /\
  snd r = Normal tt /\
  ~ thrown (snd r).
Proof.
  simpl. repeat split. intros [e He]. discriminate He.
Qed.

(** C7, amended.  On a document whose current state has class [k], a
    request [t] for which the state methods make no transition returns
    normally: no object changes, the current state is the same object as
    before, and one line is written to the log. *)
Theorem request_without_rule_keeps_state
    (s : Store) (d : addr) (k : DocStateClass) (t : Trigger) :
  document_linked s d k ->
  rule k t = None ->
  exists line,
    Document_request t d s =
      ({| heap := heap s; out := out s ++ [(line, INFO)] |}, Normal tt).
Proof.
  intros Hl Hr. destruct (rule_agrees s d k t Hl) as (s' & Heq & Hs').
  rewrite Hr in Hs'. destruct Hs' as (Hh & line & Ho).
  exists line. rewrite Heq. f_equal. destruct s'; simpl in *. by subst.
Qed.

Lemma request_without_rule_keeps_state_witness :
  let s := fst (Document_new "Article" empty_store) in
  document_linked s 0 DraftState /\
  rule DraftState Reject = None /\
  exists line,
    Document_request Reject 0 s =
      ({| heap := heap s; out := out s ++ [(line, INFO)] |}, Normal tt).
Proof.
  intros s.
  assert (H1 : document_linked s 0 DraftState).
  { exists "Article", 1. split; reflexivity. }
  assert (H2 : rule DraftState Reject = None) by reflexivity.
  refine (conj H1 (conj H2 _)).
  exact (request_without_rule_keeps_state s 0 DraftState Reject H1 H2).
Defined.

End StFacts.

(** ** The mediator and the chat room *)

Module MedFacts.
Import Med.

(** *** Calls that neither throw nor lose log lines *)

Lemma gentle_log (msg : string) (t : LogType) : gentle (log msg t).
Proof.
  intros out. unfold log, modify; simpl. split.
  - intros [e He]. discriminate He.
  - by apply prefix_app_r.
Qed.





(** *** [ConcreteMediator] *)

(** A notification of the concrete mediator returns after adding its
    reactions to the log; none of the reactions notifies again. *)
Lemma ConcreteMediator_notify_returns (sender : Sender) (event : string) (out : Log) :
  exists lines, ConcreteMediator_notify sender event out = (out ++ lines, Normal tt).
Proof.
  unfold ConcreteMediator_notify, Component1_doB, Component2_doC, bind, log, modify, ret.
  destruct (String.eqb event "A"), (String.eqb event "D"); simpl;
    repeat rewrite <- app_assoc; simpl; eexists; try reflexivity.
  by rewrite app_nil_r.
Qed.

(** *** [ChatRoom.send] *)

Section Routing.

Variable h : Heap.
Variable receive_of : addr -> Receive.
Hypothesis h_wired : wired h.
Hypothesis all_polite : forall u, polite (receive_of u).



End Routing.

(** *** Well-formed stores *)

Lemma set_user_fresh (key : string) (v : addr) (m : UserMap) :
  has key m = false -> set_user key v m = m ++ [(key, v)].
Proof.
  induction m as [|[k v'] m IH]; intros Hhas; simpl in *; [done|].
  apply orb_false_iff in Hhas as [Hk Hhas]. rewrite Hk. f_equal. by apply IH.
Qed.

Lemma has_get_user (key : string) (m : UserMap) :
  has key m = true -> is_Some (get_user key m).
Proof.
  induction m as [|[k v] m IH]; simpl; [discriminate|].
  destruct (String.eqb key k); simpl; [by eexists|exact IH].
Qed.

(** What [register] does with a name the room does not hold yet. *)
Lemma register_fresh (s : Store) (room user : addr) (n : string) (users : UserMap) :
  getName (fst s) user = Some n ->
  rooms (fst s) !! room = Some users ->
  has n users = false ->
  ChatRoom_register room user s =
    ((setChatRoom user room (set_room room (users ++ [(n, user)]) (fst s)),
      snd s ++ [("ChatRoom: " +:+ n +:+ " joined the chat room.", INFO)]),
     Normal tt).
Proof.
  intros Hn Hr Hhas. unfold ChatRoom_register, bind, get, modify, say; simpl.
  rewrite Hn, Hr, Hhas. simpl. by rewrite (set_user_fresh _ _ _ Hhas).
Qed.

(** [register] leaves every user of every room with its [chatRoom] set. *)
Lemma register_wired (s : Store) (room user : addr) :
  wired (fst s) -> wired (fst (fst (ChatRoom_register room user s))).
Proof.
  intros Hw.
  destruct (getName (fst s) user) as [n|] eqn:Hn;
    [|unfold ChatRoom_register, bind, get; simpl; by rewrite Hn].
  destruct (rooms (fst s) !! room) as [users|] eqn:Hr;
    [|unfold ChatRoom_register, bind, get; simpl; by rewrite Hn, Hr].
  destruct (has n users) eqn:Hhas;
    [unfold ChatRoom_register, bind, get; simpl; by rewrite Hn, Hr, Hhas|].
  rewrite (register_fresh _ _ _ _ _ Hn Hr Hhas). simpl.
  unfold getName in Hn. destruct (userObjs (fst s) !! user) as [uo|] eqn:Hu; [|done].
  assert (Hroom : room < length (rooms (fst s))) by (by eapply lookup_lt_Some).
  assert (Hkeep : forall r', is_Some (rooms (fst s) !! r') ->
            is_Some (<[room := users ++ [(n, user)]]> (rooms (fst s)) !! r')).
  { intros r' Hs. apply lookup_lt_is_Some. rewrite length_insert.
    by apply lookup_lt_is_Some. }
  assert (Hobj : forall u,
            u = user \/
            (exists uo' r', userObjs (fst s) !! u = Some uo' /\ chatRoom uo' = Some r' /\
                            is_Some (rooms (fst s) !! r')) ->
            exists uo' r',
              <[user := {| name := name uo; chatRoom := Some room |}]> (userObjs (fst s)) !! u
                = Some uo' /\
              chatRoom uo' = Some r' /\
              is_Some (<[room := users ++ [(n, user)]]> (rooms (fst s)) !! r')).
  { intros u Hcase. destruct (decide (u = user)) as [->|Hne].
    - eexists _, room. split; [by eapply list_lookup_insert_eq, lookup_lt_Some|].
      split; [done|]. apply Hkeep. by exists users.
    - destruct Hcase as [?|(uo' & r' & H1 & H2 & H3)]; [done|].
      exists uo', r'. rewrite list_lookup_insert_ne by done. auto. }
  intros r us k u Hrs Hin. unfold setChatRoom, set_room in *. simpl in *.
  rewrite Hu in *. simpl in *.
  apply Hobj. destruct (decide (r = room)) as [->|Hne].
  - rewrite list_lookup_insert_eq in Hrs by done. injection Hrs as <-.
    apply elem_of_app in Hin as [Hin|Hin].
    + right. by eapply Hw.
    + apply list_elem_of_singleton in Hin. injection Hin as -> ->. by left.
  - rewrite list_lookup_insert_ne in Hrs by done. right. by eapply Hw.
Qed.

Lemma ChatUser_new_wired (s : Store) (n : string) :
  wired (fst s) -> wired (fst (fst (ChatUser_new n s))).
Proof.
  intros Hw r us k u Hrs Hin. simpl in *.
  destruct (Hw r us k u Hrs Hin) as (uo & r' & H1 & H2 & H3).
  exists uo, r'. split; [|done].
  rewrite lookup_app_l; [done|]. by eapply lookup_lt_Some.
Qed.

Lemma ChatRoom_new_wired (s : Store) :
  wired (fst s) -> wired (fst (fst (ChatRoom_new s))).
Proof.
  intros Hw r us k u Hrs Hin. simpl in *.
  assert (His : forall r', is_Some (rooms (fst s) !! r') ->
                           is_Some ((rooms (fst s) ++ [[]]) !! r')).
  { intros r' Hs. apply lookup_lt_is_Some. rewrite length_app.
    apply lookup_lt_is_Some in Hs. lia. }
  destruct (decide (r < length (rooms (fst s)))) as [Hlt|Hge].
  - rewrite lookup_app_l in Hrs by done.
    destruct (Hw r us k u Hrs Hin) as (uo & r' & H1 & H2 & H3).
    exists uo, r'. auto.
  - rewrite lookup_app_r in Hrs by lia.
    destruct (r - length (rooms (fst s))) as [|i]; simpl in Hrs; [|done].
    injection Hrs as <-. by apply elem_of_nil in Hin.
Qed.

Lemma empty_wired : wired (fst empty_store).
Proof. intros r us k u Hrs. done. Qed.

(** An invariant kept by each step is kept by their sequence. *)
Lemma bind_keeps {S A B} (P : S -> Prop) (m : Eff S A) (f : A -> Eff S B) (s : S) :
  P (fst (m s)) ->
  (forall a s', P s' -> P (fst (f a s'))) ->
  P (fst (bind m f s)).
Proof.
  intros Hm Hf. unfold bind. destruct (m s) as [s' [a|e|]]; simpl in *; auto.
Qed.



Lemma ChatUser_receive_polite (me : string) : polite (ChatUser_receive me).
Proof. intros send sender message _. apply gentle_log. Qed.

Lemma ChatRoom_send_S (h : Heap) (receive_of : addr -> Receive)
    (depth : nat) (this : addr) (message : string) (sender : addr) :
  ChatRoom_send h receive_of (S depth) this message sender =
    match getName h sender, rooms h !! this with
    | Some senderName, Some users =>
        log ("ChatRoom: Dispatching message from " +:+ senderName) INFO;;
        forEach users (fun userName user =>
          if negb (String.eqb userName senderName) then
            receive_of user
              (ChatUser_send_via h (ChatRoom_send h receive_of depth) user)
              senderName message
          else ret tt)
    | _, _ => undefined_read
    end.
Proof. reflexivity. Qed.

(** With the users of the file, whose [receive] only logs, a send does
    not nest at all: a budget of one call suffices and the send returns. *)
Lemma forEach_returns (m : UserMap) (f : string -> addr -> Eff Log unit) :
  (forall k v out, exists lines, f k v out = (out ++ lines, Normal tt)) ->
  forall out, exists lines, forEach m f out = (out ++ lines, Normal tt).
Proof.
  intros Hf. induction m as [|[k v] m IH]; intros out; simpl.
  - exists []. by rewrite app_nil_r.
  - unfold bind. destruct (Hf k v out) as (l1 & ->).
    destruct (IH (out ++ l1)) as (l2 & ->).
    exists (l1 ++ l2). by rewrite app_assoc.
Qed.

Lemma ChatUser_room_send_returns
    (h : Heap) (names : addr -> string) (room : addr) (message : string)
    (sender : addr) (out : Log) :
  is_Some (rooms h !! room) ->
  is_Some (userObjs h !! sender) ->
  exists lines,
    ChatRoom_send h (fun u => ChatUser_receive (names u)) 1 room message sender out
      = (out ++ lines, Normal tt).
Proof.
  intros [users Hroom] [so Hsender].
  rewrite ChatRoom_send_S. unfold getName. rewrite Hsender, Hroom. simpl.
  unfold bind at 1, log at 1, modify.
  match goal with |- context [forEach users ?f ?o] =>
    destruct (forEach_returns users f) with (out := o) as (lines & ->) end.
  - intros k v o. destruct (negb (String.eqb k (name so))).
    + eexists. reflexivity.
    + exists []. unfold ret. by rewrite app_nil_r.
  - eexists. by rewrite <- app_assoc.
Qed.

(** In the room of two echoing participants a send never returns,
    whatever the budget: each delivery sends again. *)
Lemma echo_chain_never_returns (depth : nat) :
  forall (sender : addr) (out : Log),
    sender < 2 ->
    snd (ChatRoom_send (heap_after (room_of_two "Alice" "Bob")) (fun _ => echo)
           depth 0 "ping" sender out) = Overrun.
Proof.
  change (heap_after (room_of_two "Alice" "Bob")) with
    {| userObjs := [{| name := "Alice"; chatRoom := Some 0 |};
                    {| name := "Bob"; chatRoom := Some 0 |}];
       rooms := [[("Alice", 0); ("Bob", 1)]] |}.
  induction depth as [|depth IH]; intros sender out Hlt; [reflexivity|].
  rewrite ChatRoom_send_S.
  destruct sender as [|[|sender]]; [| |lia];
    cbn -[ChatRoom_send String.append];
    unfold bind, log, modify, ret, echo, ChatUser_send_via;
    cbn -[ChatRoom_send String.append];
    match goal with |- context [ChatRoom_send ?h ?r depth 0 "ping" ?u ?o] =>
      pose proof (IH u o ltac:(lia)) as H; unfold echo in H;
      destruct (ChatRoom_send h r depth 0 "ping" u o) as [o' c] end;
    simpl in H; by subst c.
Qed.

(** *** Running out of call stack *)



Lemma nested_log (n : nat) (msg : string) (t : LogType) : nested n (log msg t).
Proof. intros out H. discriminate H. Qed.


Lemma nested_throw (n : nat) (e : Exn) : nested n (throw e).
Proof. intros out H. discriminate H. Qed.




Section Chains.

Variable h : Heap.
Variable receive_of : addr -> Receive.
Hypothesis h_wired : wired h.
Hypothesis all_polite : forall u, polite (receive_of u).
Hypothesis all_relay : forall u, relays (receive_of u).


End Chains.


Lemma ChatUser_receive_relays (me : string) : relays (ChatUser_receive me).
Proof. intros n send sender message _. apply nested_log. Qed.




(** C9, as stated, fails: two user objects named "Alice" are
    registered one after the other; the room still maps the name to the
    first object (address 0), and the second object (address 1) was not
    even given the room. *)
Lemma second_registration_does_not_replace :
  let s := fst (room_of_two "Alice" "Alice" empty_store) in
  (get_user "Alice" <$> rooms (fst s) !! 0) = Some (Some 0) /\
  (chatRoom <$> userObjs (fst s) !! 0) = Some (Some 0) /\
  (chatRoom <$> userObjs (fst s) !! 1) = Some None.
Proof. vm_compute. auto. Qed.

(** C9, amended.  Registering a user under a name the room already
    holds is ignored: the call returns with the room, the user objects
    and the log exactly as they were, so the binding made by the first
    registration stays in effect. *)
Theorem register_taken_name_is_ignored
    (s : Store) (room user : addr) (n : string) (users : UserMap) :
  getName (fst s) user = Some n ->
  rooms (fst s) !! room = Some users ->
  has n users = true ->
  ChatRoom_register room user s = (s, Normal tt) /\
  is_Some (get_user n users).
Proof.
  intros Hn Hr Hhas. split; [|by apply has_get_user].
  unfold ChatRoom_register, bind, get; simpl. by rewrite Hn, Hr, Hhas.
Qed.

Lemma register_taken_name_is_ignored_witness :
  let s := fst (room_of_two "Alice" "Bob" empty_store) in
  let s' := fst (ChatUser_new "Alice" s) in
  getName (fst s') 2 = Some "Alice" /\
  rooms (fst s') !! 0 = Some [("Alice", 0); ("Bob", 1)] /\
  has "Alice" [("Alice", 0); ("Bob", 1)] = true /\
  ChatRoom_register 0 2 s' = (s', Normal tt).
Proof.
  intros s s'.
  assert (H1 : getName (fst s') 2 = Some "Alice") by reflexivity.
  assert (H2 : rooms (fst s') !! 0 = Some [("Alice", 0); ("Bob", 1)]) by reflexivity.
  assert (H3 : has "Alice" [("Alice", 0); ("Bob", 1)] = true) by reflexivity.
  refine (conj H1 (conj H2 (conj H3 _))).
  exact (proj1 (register_taken_name_is_ignored s' 0 2 "Alice" _ H1 H2 H3)).
Defined.

End MedFacts.

(** ** More on the invoker: sequences of undo *)

Module CmdMore.
Import Cmd CmdFacts.

Lemma run_normal (m : Eff Log unit) (inv : Invoker) (out out' : Log) :
  m out = (out', Normal tt) -> run m (inv, out) = ((inv, out'), Normal tt).
Proof. intros H. unfold run; simpl. by rewrite H. Qed.

(** One [undo] on a history ending in [c], when [c.undo()] returns. *)
Lemma undo_top_returns (inv : Invoker) (out : Log) (rest : list Command) (c : Command) :
  history inv = rest ++ [c] ->
  (forall o, snd (undo c o) = Normal tt) ->
  Invoker_undo (inv, out) =
    ((set_history rest inv,
      fst (undo c (out ++ [("Invoker: Undoing last command", INFO)]))),
     Normal tt).
Proof.
  intros Hh Hc. unfold Invoker_undo, bind. rewrite (pop_snoc _ _ _ _ Hh).
  unfold say, run, log, modify; simpl.
  specialize (Hc (out ++ [("Invoker: Undoing last command", INFO)])).
  destruct (undo c _) as [out' r]; simpl in *. by subst r.
Qed.

Lemma set_history_twice (h1 h2 : list Command) (inv : Invoker) :
  set_history h2 (set_history h1 inv) = set_history h2 inv.
Proof. reflexivity. Qed.

(** Undoing the last [length top] commands of a history. *)
Lemma undo_times_top
    (top : list Command) (keep : list Command) (inv : Invoker) (out : Log) :
  history inv = keep ++ top ->
  (forall c, c ∈ top -> forall o, snd (undo c o) = Normal tt) ->
  undo_times (length top) (inv, out) =
    ((set_history keep inv, fst (undo_script (rev top) out)), Normal tt) /\
  snd (undo_script (rev top) out) = Normal tt.
Proof.
  revert inv out. induction top as [|c top IH] using rev_ind; intros inv out Hh Hu.
  - simpl. rewrite app_nil_r in Hh. rewrite <- Hh, set_history_same. done.
  - rewrite length_app, Nat.add_1_r, rev_unit. simpl undo_times.
    rewrite app_assoc in Hh.
    assert (Hc : forall o, snd (undo c o) = Normal tt).
    { apply Hu. apply elem_of_app. right. by left. }
    unfold bind at 1. rewrite (undo_top_returns _ _ _ _ Hh Hc).
    destruct (IH (set_history (keep ++ top) inv)
                (fst (undo c (out ++ [("Invoker: Undoing last command", INFO)]))))
      as [Heq Hr].
    + reflexivity.
    + intros x Hx. apply Hu. apply elem_of_app. by left.
    + rewrite Heq, set_history_twice. simpl undo_script.
      unfold bind at 1 3, log at 1 2, modify. simpl.
      unfold bind at 1 2.
      specialize (Hc (out ++ [("Invoker: Undoing last command", INFO)])).
      destruct (undo c _) as [o1 r1]; simpl in *. subst r1. done.
Qed.


(** X1.  On a history [keep ++ top] whose [top] commands have [undo]
    methods that return, as many [undo] calls as [top] has entries run
    the [undo] of these commands from the last pushed to the first
    pushed, return, and leave exactly [keep] as the history. *)
Theorem undo_times_runs_in_reverse
    (top : list Command) (keep : list Command) (inv : Invoker) (out : Log) :
  history inv = keep ++ top ->
  (forall c, c ∈ top -> forall o, snd (undo c o) = Normal tt) ->
  undo_times (length top) (inv, out) =
    ((set_history keep inv, fst (undo_script (rev top) out)), Normal tt) /\
  snd (undo_script (rev top) out) = Normal tt.
Proof. apply undo_times_top. Qed.

Lemma undo_times_runs_in_reverse_witness :
  history (fst after_demo) = [] ++ history (fst after_demo) /\
  (forall c, c ∈ history (fst after_demo) -> forall o, snd (undo c o) = Normal tt) /\
  history (fst (fst (undo_times 2 after_demo))) = [].
Proof.
  assert (H1 : history (fst after_demo) = [] ++ history (fst after_demo)) by reflexivity.
  assert (H2 : forall c, c ∈ history (fst after_demo) ->
                         forall o, snd (undo c o) = Normal tt).
  { intros c Hc o. change (history (fst after_demo)) with
      [SimpleCommand "Say Hi!"; ComplexCommand "Send email" "Save report"] in Hc.
    apply elem_of_cons in Hc as [->|Hc]; [reflexivity|].
    apply list_elem_of_singleton in Hc as ->. reflexivity. }
  refine (conj H1 (conj H2 _)).
  pose proof (proj1 (undo_times_runs_in_reverse (history (fst after_demo)) []
                       (fst after_demo) (snd after_demo) H1 H2)) as H.
  change (length (history (fst after_demo))) with 2 in H.
  change (fst after_demo, snd after_demo) with after_demo in H.
  by rewrite H.
Defined.

Lemma step {S A B} (m : Eff S A) (f : A -> Eff S B) (s s1 : S) (a : A) :
  m s = (s1, Normal a) -> bind m f s = f a s1.
Proof. intros H. unfold bind. by rewrite H. Qed.

Lemma seq_returns (m k : Eff Log unit) (out : Log) :
  (forall o, snd (m o) = Normal tt) -> (m;; k) out = k (fst (m out)).
Proof.
  intros H. unfold bind. specialize (H out).
  destruct (m out) as [o r]; simpl in *. by subst r.
Qed.

Lemma log_returns (msg : string) (t : LogType) (o : Log) :
  snd (log msg t o) = Normal tt.
Proof. reflexivity. Qed.

Lemma say_eq (msg : string) (t : LogType) (inv : Invoker) (out : Log) :
  say msg t (inv, out) = ((inv, out ++ [(msg, t)]), Normal tt).
Proof. reflexivity. Qed.

Lemma apply_slot_returns (c : Command) (inv : Invoker) (out : Log) :
  (forall o, snd (execute c o) = Normal tt) ->
  apply_slot (Some c) (inv, out) =
    ((set_history (history inv ++ [c]) inv, fst (execute c out)), Normal tt).
Proof.
  intros H. rewrite apply_slot_some. specialize (H out).
  destruct (execute c out) as [o r]; simpl in *. by subst r.
Qed.

Lemma doSomethingImportant_both (inv : Invoker) (out : Log) (c1 c2 : Command) :
  onStart inv = Some c1 -> onFinish inv = Some c2 ->
  (forall o, snd (execute c1 o) = Normal tt) ->
  (forall o, snd (execute c2 o) = Normal tt) ->
  doSomethingImportant (inv, out) =
    ((set_history (history inv ++ [c1; c2]) inv,
      fst ((log "Invoker: Does anybody want something done before I begin?" INFO;;
            execute c1;;
            log "Invoker: ...doing something really important..." INFO;;
            log "Invoker: Does anybody want something done after I finish?" INFO;;
            execute c2) out)),
     Normal tt).
Proof.
  intros Hs Hf H1 H2.
  rewrite (seq_returns _ _ _ (log_returns _ _)), (seq_returns _ _ _ H1),
    (seq_returns _ _ _ (log_returns _ _)), (seq_returns _ _ _ (log_returns _ _)).
  unfold doSomethingImportant.
  rewrite (step _ _ _ _ _ (say_eq _ _ _ _)).
  rewrite (step get _ _ _ _ eq_refl). simpl fst. rewrite Hs.
  rewrite (step _ _ _ _ _ (apply_slot_returns _ _ _ H1)).
  rewrite (step _ _ _ _ _ (say_eq _ _ _ _)).
  rewrite (step _ _ _ _ _ (say_eq _ _ _ _)).
  rewrite (step get _ _ _ _ eq_refl). cbn [fst onFinish set_history]. rewrite Hf.
  rewrite (apply_slot_returns _ _ _ H2). simpl.
  by rewrite <- app_assoc.
Qed.

(** X2.  When both slots hold commands whose [execute] and [undo]
    return, [doSomethingImportant] followed by two [undo] calls leaves
    the invoker as it was before, history included; in between, the
    [onFinish] command is undone before the [onStart] command. *)
Theorem do_then_undo_twice_restores
    (inv : Invoker) (out : Log) (c1 c2 : Command) :
  onStart inv = Some c1 -> onFinish inv = Some c2 ->
  (forall o, snd (execute c1 o) = Normal tt) ->
  (forall o, snd (execute c2 o) = Normal tt) ->
  (forall o, snd (undo c1 o) = Normal tt) ->
  (forall o, snd (undo c2 o) = Normal tt) ->
  (doSomethingImportant;; undo_times 2) (inv, out) =
    ((inv, fst (do_undo_script c1 c2 out)), Normal tt).
Proof.
  intros Hs Hf H1 H2 U1 U2.
  rewrite (step _ _ _ _ _ (doSomethingImportant_both _ _ _ _ Hs Hf H1 H2)).
  destruct (undo_times_top [c1; c2] (history inv)
              (set_history (history inv ++ [c1; c2]) inv)
              (fst ((log "Invoker: Does anybody want something done before I begin?" INFO;;
                     execute c1;;
                     log "Invoker: ...doing something really important..." INFO;;
                     log "Invoker: Does anybody want something done after I finish?" INFO;;
                     execute c2) out))) as [Heq _].
  - reflexivity.
  - intros c Hc. apply elem_of_cons in Hc as [->|Hc]; [exact U1|].
    apply list_elem_of_singleton in Hc as ->. exact U2.
  - simpl length in Heq. rewrite Heq.
    rewrite set_history_twice, set_history_same. f_equal. f_equal.
    unfold do_undo_script. simpl rev. simpl undo_script.
    repeat first
      [ rewrite (seq_returns _ _ _ (log_returns _ _))
      | rewrite (seq_returns _ _ _ H1) | rewrite (seq_returns _ _ _ H2)
      | rewrite (seq_returns _ _ _ U1) | rewrite (seq_returns _ _ _ U2) ].
    reflexivity.
Qed.

Lemma do_then_undo_twice_restores_witness :
  let c1 := SimpleCommand "Say Hi!" in
  let c2 := ComplexCommand "Send email" "Save report" in
  onStart demo_invoker = Some c1 /\ onFinish demo_invoker = Some c2 /\
  (forall o, snd (execute c1 o) = Normal tt) /\
  (forall o, snd (execute c2 o) = Normal tt) /\
  (forall o, snd (undo c1 o) = Normal tt) /\
  (forall o, snd (undo c2 o) = Normal tt) /\
  (doSomethingImportant;; undo_times 2) (demo_invoker, []) =
    ((demo_invoker, fst (do_undo_script c1 c2 [])), Normal tt).
Proof.
  intros c1 c2.
  assert (Hs : onStart demo_invoker = Some c1) by reflexivity.
  assert (Hf : onFinish demo_invoker = Some c2) by reflexivity.
  assert (H1 : forall o, snd (execute c1 o) = Normal tt) by (intros o; reflexivity).
  assert (H2 : forall o, snd (execute c2 o) = Normal tt) by (intros o; reflexivity).
  assert (U1 : forall o, snd (undo c1 o) = Normal tt) by (intros o; reflexivity).
  assert (U2 : forall o, snd (undo c2 o) = Normal tt) by (intros o; reflexivity).
  refine (conj Hs (conj Hf (conj H1 (conj H2 (conj U1 (conj U2 _)))))).
  exact (do_then_undo_twice_restores demo_invoker [] c1 c2 Hs Hf H1 H2 U1 U2).
Defined.

End CmdMore.

(** ** More on the subject: subscriptions and notification in progress *)

Module ObsMore.
Import Obs ObsFacts.

Lemma indexOf_snoc (o : ObsId) (l : list ObsId) :
  o ∉ l -> indexOf o (l ++ [o]) = Some (length l).
Proof.
  induction l as [|x l IH]; intros Hn; simpl.
  - by rewrite Nat.eqb_refl.
  - apply not_elem_of_cons in Hn as [Hne Hn].
    destruct (Nat.eqb_spec o x) as [->|_]; [done|].
    by rewrite (IH Hn).
Qed.

(** X3.  Attaching an observer that is not attached and detaching it
    again gives back the subscriber array and the state as they were;
    both calls return, and each adds one line to the log. *)
Theorem attach_then_detach_restores (o : ObsId) (s : Store) :
  o ∉ observers s ->
  (attach o;; detach o) s =
    ({| state := state s; observers := observers s;
        out := out s ++ [("Subject: Attached an observer.", INFO);
                         ("Subject: Detached an observer.", INFO)] |},
     Normal tt).
Proof.
  intros Hn. unfold bind at 1. rewrite (attach_absent _ _ Hn).
  unfold detach, bind, get. simpl. rewrite (indexOf_snoc _ _ Hn).
  unfold set_observers, log, modify. simpl.
  rewrite (delete_middle (observers s) [] o), app_nil_r.
  by rewrite <- app_assoc.
Qed.

Lemma attach_then_detach_restores_witness :
  let s := fst (do_ops [Attach 1; Attach 2] (ConcreteSubject_new [])) in
  (3 ∉ observers s) /\
  observers (fst ((attach 3;; detach 3) s)) = observers s.
Proof.
  intros s.
  assert (H : 3 ∉ observers s).
  { intros Hin. apply includes_elem in Hin. discriminate Hin. }
  split; [exact H|].
  by rewrite (attach_then_detach_restores 3 s H).
Defined.

Lemma wants_registered (o : ObsId) (ops : list Op) :
  forall l : list ObsId,
    o ∈ registered_after l ops <-> wants o ops (includes o l) = true.
Proof.
  induction ops as [|[x|x] ops IH]; intros l; simpl.
  - symmetry. apply includes_elem.
  - rewrite IH. destruct (Nat.eqb_spec x o) as [->|Hne].
    + destruct (decide (o ∈ l)) as [Hin|Hin].
      * apply includes_elem in Hin. by rewrite Hin.
      * assert (Hi : includes o (l ++ [o]) = true).
        { apply includes_elem, elem_of_app. right. by left. }
        by rewrite Hi.
    + destruct (decide (x ∈ l)) as [Hin|Hin]; [done|].
      assert (Hi : includes o (l ++ [x]) = includes o l).
      { destruct (includes o l) eqn:E.
        - apply includes_elem, elem_of_app. left. by apply includes_elem.
        - apply includes_not_elem. apply includes_not_elem in E.
          intros Ho. apply elem_of_app in Ho as [Ho|Ho]; [done|].
          apply list_elem_of_singleton in Ho. congruence. }
      by rewrite Hi.
  - rewrite IH. destruct (Nat.eqb_spec x o) as [->|Hne].
    + assert (Hi : includes o (filter (fun y => y <> o) l) = false).
      { apply includes_not_elem. intros Ho.
        apply list_elem_of_filter in Ho as [Ho _]. done. }
      by rewrite Hi.
    + assert (Hi : includes o (filter (fun y => y <> x) l) = includes o l).
      { destruct (includes o l) eqn:E.
        - apply includes_elem, list_elem_of_filter. split; [congruence|].
          by apply includes_elem.
        - apply includes_not_elem. apply includes_not_elem in E.
          intros Ho. apply list_elem_of_filter in Ho as [_ Ho]. done. }
      by rewrite Hi.
Qed.

(** X4.  After any sequence of [attach] and [detach] calls on a new
    subject, the subscriber array holds no observer twice, and an
    observer is in it exactly when the most recent call naming it was an
    [attach]. *)
Theorem subscribed_iff_last_request_attach (ops : list Op) (out0 : Log) (o : ObsId) :
  let s := fst (do_ops ops (ConcreteSubject_new out0)) in
  NoDup (observers s) /\
  (o ∈ observers s <-> wants o ops false = true).
Proof.
  intros s.
  destruct (observers_registered ops (ConcreteSubject_new out0) (new_subject_NoDup out0))
    as (_ & Hnd & Hobs).
  split; [exact Hnd|]. fold s in Hobs. rewrite Hobs.
  apply (wants_registered o ops []).
Qed.

(** X5.  Detaching an observer that is not attached is not an error:
    the call returns, leaves the array and the state as they are, and
    logs "Nonexistent observer" at level ERROR.  So a second [detach] of
    the same observer, on an array without duplicates, changes nothing. *)
Theorem detach_twice_is_harmless (o : ObsId) (s : Store) :
  NoDup (observers s) ->
  let s1 := fst (detach o s) in
  (o ∉ observers s1) /\
  detach o s1 =
    ({| state := state s1; observers := observers s1;
        out := out s1 ++ [("Subject: Nonexistent observer.", ERROR)] |},
     Normal tt).
Proof.
  intros Hnd s1.
  assert (Hn : o ∉ observers s1).
  { destruct (do_op_observers (Detach o) s Hnd) as (_ & _ & Ho).
    simpl in Ho. fold s1 in Ho. rewrite Ho.
    intros Hin. apply list_elem_of_filter in Hin as [Hin _]. done. }
  split; [exact Hn|]. by apply detach_absent.
Qed.

Lemma detach_twice_is_harmless_witness :
  let s := fst (do_ops [Attach 1; Attach 2] (ConcreteSubject_new [])) in
  NoDup (observers s) /\
  observers (fst (detach 1 (fst (detach 1 s)))) = [2].
Proof.
  intros s.
  assert (H : NoDup (observers s)).
  { apply (observers_registered [Attach 1; Attach 2] (ConcreteSubject_new [])).
    apply new_subject_NoDup. }
  split; [exact H|].
  by rewrite (proj2 (detach_twice_is_harmless 1 s H)).
Defined.

(** *** Subscriptions changed while a notification is in progress *)

Lemma filter_drop_one (o : ObsId) (before rest : list ObsId) :
  NoDup (before ++ o :: rest) ->
  filter (fun y => y <> o) (before ++ o :: rest) = before ++ rest.
Proof.
  intros Hnd. apply NoDup_app in Hnd as (_ & Hdis & Hnd).
  apply NoDup_cons in Hnd as [Ho _].
  rewrite filter_app, filter_cons_False by (intros H; by apply H).
  rewrite !filter_absent; [done|done|].
  intros Hin. apply (Hdis o Hin). by left.
Qed.

(** X6.  [notify] reads the array while it runs.  When the handler of
    an observer [o] detaches [o] itself, the observer [x] that follows
    [o] in the array moves into the place just read and is passed over:
    every other observer is called, [x] is not, although it stays
    attached throughout. *)
Theorem self_detach_skips_next
    (update : ObsId -> Handler) (fuel : nat) (s : Store) (calls : list ObsId)
    (before after : list ObsId) (o x : ObsId) :
  observers s = before ++ o :: x :: after ->
  NoDup (observers s) ->
  (forall p, p ∈ before ++ after -> returns (update p) /\ steady (update p)) ->
  (forall s', update o s' = detach o s') ->
  length (observers s) <= fuel ->
  exists s',
    notify update fuel (s, calls) = ((s', calls ++ before ++ o :: after), Normal tt) /\
    observers s' = before ++ x :: after /\
    x ∉ before ++ o :: after.
Proof.
  intros Hobs Hnd Hh Ho Hfuel. rewrite notify_log.
  set (s0 := {| state := state s; observers := observers s;
                out := out s ++ [("Subject: Notifying observers...", INFO)] |}).
  rewrite Hobs, length_app in Hfuel. simpl in Hfuel.
  destruct (notify_from_stretch update before [] (o :: x :: after)
              (fuel - length before) s0 calls) as (s1 & Hs1 & Heq).
  { exact Hobs. }
  { intros p Hp. apply Hh. apply elem_of_app. by left. }
  replace (length before + (fuel - length before)) with fuel in Heq by lia.
  simpl length in Heq. simpl Nat.add in Heq. rewrite Heq. clear Heq.
  simpl observers in Hs1.
  rewrite notify_from_eq. simpl fst. rewrite Hs1, Hobs.
  rewrite list_lookup_middle by reflexivity.
  destruct (fuel - length before) as [|f] eqn:Hf; [lia|].
  unfold bind at 1, call. simpl fst. simpl snd. rewrite Ho.
  rewrite detach_present; rewrite ?Hs1, ?Hobs; [|by rewrite <- Hobs|].
  2:{ apply elem_of_app. right. by left. }
  rewrite Hobs in Hnd. rewrite (filter_drop_one _ _ _ Hnd).
  set (s2 := {| state := state s1; observers := before ++ x :: after;
                out := out s1 ++ [("Subject: Detached an observer.", INFO)] |}).
  destruct (notify_from_stretch update after (before ++ [x]) []
              (f - length after) s2 ((calls ++ before) ++ [o])) as (s3 & Hs3 & Heq).
  { simpl. by rewrite <- app_assoc, app_nil_r. }
  { intros p Hp. apply Hh. apply elem_of_app. by right. }
  replace (length after + (f - length after)) with f in Heq by lia.
  rewrite length_app in Heq. simpl length in Heq.
  replace (length before + 1) with (S (length before)) in Heq by lia.
  rewrite Heq. clear Heq.
  rewrite notify_from_eq. simpl fst. rewrite Hs3. simpl observers.
  rewrite lookup_ge_None_2 by (rewrite length_app; simpl; lia).
  exists s3. split; [|split; [exact Hs3|]].
  - f_equal. f_equal. rewrite <- !app_assoc. reflexivity.
  - apply NoDup_app in Hnd as (_ & Hdis & Hnd').
    apply NoDup_cons in Hnd' as [Ho' Hnd'].
    apply NoDup_cons in Hnd' as [Hx _].
    intros Hin. apply elem_of_app in Hin as [Hin|Hin].
    + apply (Hdis x Hin). right. by left.
    + apply elem_of_cons in Hin as [->|Hin]; [|done].
      apply Ho'. by left.
Qed.

Lemma self_detach_skips_next_witness :
  let s := fst (do_ops [Attach 1; Attach 2; Attach 3] (ConcreteSubject_new [])) in
  observers s = [] ++ 1 :: 2 :: [3] /\
  NoDup (observers s) /\
  (forall p, p ∈ [] ++ [3] ->
     returns (update_self_detaching p) /\ steady (update_self_detaching p)) /\
  (forall s', update_self_detaching 1 s' = detach 1 s') /\
  length (observers s) <= 3 /\
  snd (fst (notify update_self_detaching 3 (s, []))) = [1; 3].
Proof.
  intros s.
  assert (H1 : observers s = [] ++ 1 :: 2 :: [3]) by reflexivity.
  assert (H2 : NoDup (observers s)).
  { apply (observers_registered [Attach 1; Attach 2; Attach 3] (ConcreteSubject_new [])).
    apply new_subject_NoDup. }
  assert (H3 : forall p, p ∈ [] ++ [3] ->
            returns (update_self_detaching p) /\ steady (update_self_detaching p)).
  { intros p Hp. apply list_elem_of_singleton in Hp as ->. split; intros ?; reflexivity. }
  assert (H4 : forall s', update_self_detaching 1 s' = detach 1 s') by reflexivity.
  assert (H5 : length (observers s) <= 3) by (vm_compute; lia).
  refine (conj H1 (conj H2 (conj H3 (conj H4 (conj H5 _))))).
  destruct (self_detach_skips_next update_self_detaching 3 s [] [] [3] 1 2
              H1 H2 H3 H4 H5) as (s' & Heq & _).
  by rewrite Heq.
Defined.

(** X7.  An observer attached by a handler while [notify] runs is
    called in that same notification: when the handler of the last
    observer [o] attaches a new observer [n], [notify] goes on to call
    [n] before it returns. *)
Theorem attached_during_notify_is_called
    (update : ObsId -> Handler) (fuel : nat) (s : Store) (calls : list ObsId)
    (before : list ObsId) (o n : ObsId) :
  observers s = before ++ [o] ->
  n ∉ observers s ->
  (forall p, p ∈ before ++ [n] -> returns (update p) /\ steady (update p)) ->
  (forall s', update o s' = attach n s') ->
  length (observers s) < fuel ->
  exists s',
    notify update fuel (s, calls) = ((s', calls ++ before ++ [o; n]), Normal tt) /\
    observers s' = before ++ [o; n].
Proof.
  intros Hobs Hn Hh Ho Hfuel. rewrite notify_log.
  set (s0 := {| state := state s; observers := observers s;
                out := out s ++ [("Subject: Notifying observers...", INFO)] |}).
  rewrite Hobs, length_app in Hfuel. simpl in Hfuel.
  destruct (notify_from_stretch update before [] [o]
              (fuel - length before) s0 calls) as (s1 & Hs1 & Heq).
  { exact Hobs. }
  { intros p Hp. apply Hh. apply elem_of_app. by left. }
  replace (length before + (fuel - length before)) with fuel in Heq by lia.
  simpl length in Heq. simpl Nat.add in Heq. rewrite Heq. clear Heq.
  simpl observers in Hs1.
  rewrite notify_from_eq. simpl fst. rewrite Hs1, Hobs.
  rewrite list_lookup_middle by reflexivity.
  destruct (fuel - length before) as [|f] eqn:Hf; [lia|].
  unfold bind at 1, call. simpl fst. simpl snd. rewrite Ho.
  rewrite attach_absent by (by rewrite Hs1).
  rewrite Hs1, Hobs.
  set (s2 := {| state := state s1; observers := (before ++ [o]) ++ [n];
                out := out s1 ++ [("Subject: Attached an observer.", INFO)] |}).
  destruct (notify_from_stretch update [n] (before ++ [o]) []
              (f - 1) s2 ((calls ++ before) ++ [o])) as (s3 & Hs3 & Heq).
  { reflexivity. }
  { intros p Hp. apply Hh. apply elem_of_app. by right. }
  simpl length in Heq. replace (1 + (f - 1)) with f in Heq by lia.
  rewrite length_app in Heq. simpl length in Heq.
  replace (length before + 1) with (S (length before)) in Heq by lia.
  rewrite Heq. clear Heq.
  rewrite notify_from_eq. simpl fst. rewrite Hs3. simpl observers.
  rewrite lookup_ge_None_2 by (rewrite !length_app; simpl; lia).
  exists s3. split.
  - f_equal. f_equal. rewrite <- !app_assoc. reflexivity.
  - rewrite Hs3. simpl. by rewrite <- app_assoc.
Qed.

Lemma attached_during_notify_is_called_witness :
  let s := fst (do_ops [Attach 2; Attach 1] (ConcreteSubject_new [])) in
  observers s = [2] ++ [1] /\
  (9 ∉ observers s) /\
  (forall p, p ∈ [2] ++ [9] ->
     returns (update_attaching p) /\ steady (update_attaching p)) /\
  (forall s', update_attaching 1 s' = attach 9 s') /\
  length (observers s) < 3 /\
  snd (fst (notify update_attaching 3 (s, []))) = [2; 1; 9].
Proof.
  intros s.
  assert (H1 : observers s = [2] ++ [1]) by reflexivity.
  assert (H2 : 9 ∉ observers s).
  { intros Hin. apply includes_elem in Hin. discriminate Hin. }
  assert (H3 : forall p, p ∈ [2] ++ [9] ->
            returns (update_attaching p) /\ steady (update_attaching p)).
  { intros p Hp. apply elem_of_cons in Hp as [->|Hp];
      [|apply list_elem_of_singleton in Hp as ->]; split; intros ?; reflexivity. }
  assert (H4 : forall s', update_attaching 1 s' = attach 9 s') by reflexivity.
  assert (H5 : length (observers s) < 3) by (vm_compute; lia).
  refine (conj H1 (conj H2 (conj H3 (conj H4 (conj H5 _))))).
  destruct (attached_during_notify_is_called update_attaching 3 s [] [2] 1 9
              H1 H2 H3 H4 H5) as (s' & Heq & _).
  by rewrite Heq.
Defined.

End ObsMore.

(** ** More on contexts and documents: the classes a run goes through *)

Module StMore.
Import St StFacts.

Local Arguments doc_log : simpl never.
Local Arguments via_document : simpl never.
Local Arguments via_context : simpl never.

Lemma load_eq (s : Store) (a : addr) (o : Obj) :
  heap s !! a = Some o -> load a s = (s, Normal o).
Proof. intros H. unfold load. by rewrite H. Qed.

Lemma log_eq (s : Store) (msg : string) (t : LogType) :
  log msg t s = ({| heap := heap s; out := out s ++ [(msg, t)] |}, Normal tt).
Proof. reflexivity. Qed.

(** Lookups in a store where [this] was overwritten and a new object
    was installed at the next free address. *)
Lemma moved_lookup (h : list Obj) (this : addr) (o o0 o' : Obj) :
  this < length h ->
  let h' := <[length h := o']> (<[this := o]> (h ++ [o0])) in
  h' !! this = Some o /\
  h' !! length h = Some o' /\
  (forall a x, a <> this -> h !! a = Some x -> h' !! a = Some x) /\
  length h' = S (length h).
Proof.
  intros Hlt h'. unfold h'. repeat split.
  - rewrite list_lookup_insert_ne by lia.
    apply list_lookup_insert_eq. rewrite length_app. simpl. lia.
  - apply list_lookup_insert_eq. rewrite length_insert, length_app. simpl. lia.
  - intros a x Hne Ha. pose proof (lookup_lt_Some _ _ _ Ha) as Hlt'.
    rewrite list_lookup_insert_ne by lia.
    rewrite list_lookup_insert_ne by done.
    by apply lookup_snoc_old.
  - rewrite !length_insert, length_app. simpl. lia.
Qed.

(** *** Contexts *)

Lemma transition_to_new_eq (s : Store) (this : addr) (x : option addr) (c : StateClass) :
  heap s !! this = Some (Context x) ->
  (let! fresh := alloc (State c None) in Context_transitionTo this fresh) s =
    ({| heap := <[length (heap s) := State c (Some this)]>
                  (<[this := Context (Some (length (heap s)))]>
                     (heap s ++ [State c None]));
        out := out s ++
          [("Context: Transitioning to " +:+ state_class_name c +:+ ".", INFO)] |},
     Normal tt).
Proof.
  intros Hthis. unfold bind at 1, alloc.
  erewrite Context_transitionTo_eq; simpl; [reflexivity| |apply lookup_snoc_new].
  by eapply lookup_snoc_old.
Qed.

(** One client operation on a context in class [k]: it returns, the
    context ends in class [context_step k op], no other object that
    existed is changed, at most one object is added, and the log only
    grows. *)
Lemma context_op_step (s : Store) (this : addr) (k : StateClass) (op : ContextOp) :
  context_in s this k ->
  exists s',
    context_op this op s = (s', Normal tt) /\
    context_in s' this (context_step k op) /\
    (forall a x, a <> this -> heap s !! a = Some x -> heap s' !! a = Some x) /\
    length (heap s) <= length (heap s') <= S (length (heap s)) /\
    out s `prefix_of` out s'.
Proof.
  intros (st & Hthis & Hst).
  pose proof (lookup_lt_Some _ _ _ Hthis) as Hlt.
  assert (Hmove : forall (s0 : Store) (c : StateClass),
            heap s0 = heap s -> out s `prefix_of` out s0 ->
            exists s',
              (let! fresh := alloc (State c None) in Context_transitionTo this fresh) s0
                = (s', Normal tt) /\
              context_in s' this c /\
              (forall a x, a <> this -> heap s !! a = Some x -> heap s' !! a = Some x) /\
              length (heap s) <= length (heap s') <= S (length (heap s)) /\
              out s `prefix_of` out s').
  { intros s0 c Hh Ho. eexists. split.
    - eapply transition_to_new_eq. rewrite Hh. exact Hthis.
    - simpl. rewrite Hh.
      destruct (moved_lookup (heap s) this (Context (Some (length (heap s))))
                  (State c None) (State c (Some this)) Hlt) as (H1 & H2 & H3 & H4).
      split; [by exists (length (heap s))|].
      split; [exact H3|]. split; [lia|]. by apply prefix_app_r. }
  assert (Hstay : forall lines,
            context_in {| heap := heap s; out := out s ++ lines |} this k /\
            (forall a x, a <> this -> heap s !! a = Some x -> heap s !! a = Some x) /\
            length (heap s) <= length (heap s) <= S (length (heap s)) /\
            out s `prefix_of` out s ++ lines).
  { intros lines. split; [by exists st|]. split; [done|]. split; [lia|].
    by apply prefix_app_r. }
  destruct op as [c| |]; simpl.
  - by apply Hmove.
  - unfold Context_request1, Context_state, State_handle1.
    rewrite (bind_normal _ _ s s st); [|by rewrite (bind_normal _ _ _ _ _ (load_eq _ _ _ Hthis))].
    rewrite (bind_normal _ _ _ _ _ (load_eq _ _ _ Hst)).
    destruct k.
    + rewrite (bind_normal _ _ _ _ _ (log_eq _ _ _)).
      rewrite (bind_normal _ _ _ _ _ (log_eq _ _ _)).
      unfold via_context. apply Hmove; simpl; [done|].
      rewrite <- app_assoc. by apply prefix_app_r.
    + rewrite log_eq. eexists. split; [reflexivity|]. apply Hstay.
  - unfold Context_request2, Context_state, State_handle2.
    rewrite (bind_normal _ _ s s st); [|by rewrite (bind_normal _ _ _ _ _ (load_eq _ _ _ Hthis))].
    rewrite (bind_normal _ _ _ _ _ (load_eq _ _ _ Hst)).
    destruct k.
    + rewrite log_eq. eexists. split; [reflexivity|]. apply Hstay.
    + rewrite (bind_normal _ _ _ _ _ (log_eq _ _ _)).
      rewrite (bind_normal _ _ _ _ _ (log_eq _ _ _)).
      unfold via_context. apply Hmove; simpl; [done|].
      rewrite <- app_assoc. by apply prefix_app_r.
Qed.

Lemma context_ops_steps (ops : list ContextOp) :
  forall (s : Store) (this : addr) (k : StateClass),
    context_in s this k ->
    exists s',
      context_ops this ops s = (s', Normal tt) /\
      context_in s' this (fold_left context_step ops k) /\
      (forall a x, a <> this -> heap s !! a = Some x -> heap s' !! a = Some x) /\
      length (heap s) <= length (heap s') <= length (heap s) + length ops /\
      out s `prefix_of` out s'.
Proof.
  induction ops as [|op ops IH]; intros s this k Hin; simpl.
  - exists s. repeat split; auto; lia.
  - destruct (context_op_step s this k op Hin) as (s1 & Heq & Hin1 & Hfr1 & Hlen1 & Hpre1).
    destruct (IH s1 this _ Hin1) as (s2 & Heq2 & Hin2 & Hfr2 & Hlen2 & Hpre2).
    exists s2. rewrite (bind_normal _ _ _ _ _ Heq).
    repeat split; auto; try lia. by etrans.
Qed.

Lemma context_run_start (s : Store) (c : StateClass) :
  exists s1,
    (let! st := alloc (State c None) in Context_new st) s
      = (s1, Normal (S (length (heap s)))) /\
    context_in s1 (S (length (heap s))) c /\
    (forall a x, heap s !! a = Some x -> heap s1 !! a = Some x).
Proof.
  unfold bind at 1, alloc. unfold Context_new.
  unfold bind at 1, alloc. simpl.
  rewrite length_app. simpl. rewrite Nat.add_1_r.
  erewrite bind_normal.
  2:{ eapply Context_transitionTo_eq; simpl.
      - replace (S (length (heap s))) with (length (heap s ++ [State c None]))
          by (rewrite length_app; simpl; lia).
        apply lookup_snoc_new.
      - eapply lookup_snoc_old, lookup_snoc_new. }
  eexists. split; [reflexivity|]. simpl.
  assert (Hn : S (length (heap s)) <> length (heap s)) by lia.
  split.
  - exists (length (heap s)). cbn [heap]. split.
    + rewrite list_lookup_insert_ne by done.
      apply list_lookup_insert_eq. rewrite !length_app. simpl. lia.
    + apply list_lookup_insert_eq. rewrite length_insert, !length_app. simpl. lia.
  - intros a x Ha. pose proof (lookup_lt_Some _ _ _ Ha) as Hlt. cbn [heap].
    rewrite !list_lookup_insert_ne by lia.
    by apply lookup_snoc_old, lookup_snoc_old.
Qed.

(** X8.  A context behaves as the two-class automaton its handlers
    spell out: built on a new state of class [c] and put through any
    sequence of operations, it ends with a current state whose class is
    the one the automaton reaches ([request1] moves A to B, [request2]
    moves B to A, every other request stays), every call returning. *)
Theorem context_follows_automaton (s : Store) (c : StateClass) (ops : list ContextOp) :
  exists s' this,
    context_run c ops s = (s', Normal this) /\
    context_in s' this (fold_left context_step ops c).
Proof.
  destruct (context_run_start s c) as (s1 & Heq & Hin & _).
  destruct (context_ops_steps ops s1 _ _ Hin) as (s2 & Heq2 & Hin2 & _).
  exists s2, (S (length (heap s))). split; [|exact Hin2].
  unfold context_run.
  change (let! st := alloc (State c None) in
          let! this := Context_new st in context_ops this ops;; ret this)
    with (fun s0 => (let! st := alloc (State c None) in
                     let! this := Context_new st in
                     context_ops this ops;; ret this) s0).
  unfold bind at 1, alloc. unfold bind at 1, alloc in Heq.
  rewrite (bind_normal _ _ _ _ _ Heq), (bind_normal _ _ _ _ _ Heq2). reflexivity.
Qed.

(** X9.  What an operation on a context writes to.  [transitionTo]
    writes to the context and to the incoming state object, and to
    nothing else: every other object is as before and none is added
    (the incoming object is written to even when it is the current state
    of another context).  On a context whose current state refers back
    to it, any sequence of requests and of transitions to newly built
    state objects leaves each object the store held before, other than
    the context itself, unchanged (other contexts, their states, the
    states this context had earlier), and adds at most one object for
    each operation. *)
Theorem context_ops_leave_others_alone :
  (forall (s : Store) (this st : addr) (x y : option addr) (k : StateClass),
     heap s !! this = Some (Context x) ->
     heap s !! st = Some (State k y) ->
     exists s',
       Context_transitionTo this st s = (s', Normal tt) /\
       (forall a, a <> this -> a <> st -> heap s' !! a = heap s !! a) /\
       length (heap s') = length (heap s)) /\
  (forall (s : Store) (this : addr) (k : StateClass) (ops : list ContextOp),
     context_in s this k ->
     exists s',
       context_ops this ops s = (s', Normal tt) /\
       (forall a x, a <> this -> heap s !! a = Some x -> heap s' !! a = Some x) /\
       length (heap s) <= length (heap s') <= length (heap s) + length ops).
Proof.
  split.
  - intros s this st x y k Hthis Hst.
    eexists. split; [by eapply Context_transitionTo_eq|]. cbn [heap]. split.
    + intros a Ha1 Ha2. by rewrite !list_lookup_insert_ne.
    + by rewrite !length_insert.
  - intros s this k ops Hin.
    destruct (context_ops_steps ops s this k Hin) as (s' & Heq & _ & Hfr & Hlen & _).
    by exists s'.
Qed.

Lemma context_ops_leave_others_alone_witness :
  let s := fst (context_run ConcreteStateA [] (fst (context_run ConcreteStateB [] empty_store))) in
  context_in s 3 ConcreteStateA /\
  heap s !! 3 = Some (Context (Some 2)) /\
  heap s !! 0 = Some (State ConcreteStateB (Some 1)) /\
  heap (fst (context_ops 3 [Request1; Request2; Request1] s)) !! 1 = heap s !! 1 /\
  heap s !! 1 = Some (Context (Some 0)) /\
  heap (fst (Context_transitionTo 3 0 s)) !! 1 = heap s !! 1 /\
  heap (fst (Context_transitionTo 3 0 s)) !! 2 = heap s !! 2.
Proof.
  intros s.
  assert (H : context_in s 3 ConcreteStateA) by (exists 2; split; reflexivity).
  assert (H3 : heap s !! 3 = Some (Context (Some 2))) by reflexivity.
  assert (H0 : heap s !! 0 = Some (State ConcreteStateB (Some 1))) by reflexivity.
  refine (conj H (conj H3 (conj H0 _))).
  destruct context_ops_leave_others_alone as [Hto Hops].
  destruct (Hops s 3 ConcreteStateA [Request1; Request2; Request1] H)
    as (s' & Heq & Hfr & _).
  destruct (Hto s 3 0 _ _ _ H3 H0) as (s1 & Heq1 & Hfr1 & _).
  rewrite Heq, Heq1. cbn [fst].
  split; [|split; [reflexivity|split]].
  - rewrite (Hfr 1 (Context (Some 0))); [reflexivity|lia|reflexivity].
  - apply Hfr1; lia.
  - apply Hfr1; lia.
Defined.

(** X10.  One state object installed in two contexts serves only the
    one that took it last.  If context [c2] transitions to the object
    that is the current state of context [c1] (class A here), the object
    then refers to [c2]; a [request1] made of [c1] is handled by that
    object and moves [c2] to a new state of class B, while [c1] is left
    with the same object as before. *)
Theorem shared_state_serves_last_context
    (s : Store) (c1 c2 st : addr) (x : option addr) :
  heap s !! c1 = Some (Context (Some st)) ->
  heap s !! st = Some (State ConcreteStateA (Some c1)) ->
  heap s !! c2 = Some (Context x) ->
  c1 <> c2 ->
  exists s',
    (Context_transitionTo c2 st;; Context_request1 c1) s = (s', Normal tt) /\
    heap s' !! c1 = Some (Context (Some st)) /\
    heap s' !! st = Some (State ConcreteStateA (Some c2)) /\
    context_in s' c2 ConcreteStateB.
Proof.
  intros H1 Hst H2 Hne.
  assert (Hne1 : c1 <> st) by (intros ->; congruence).
  assert (Hne2 : c2 <> st) by (intros ->; congruence).
  rewrite (bind_normal _ _ _ _ _ (Context_transitionTo_eq _ _ _ _ _ _ H2 Hst)).
  set (s1 := {| heap := <[st := State ConcreteStateA (Some c2)]>
                          (<[c2 := Context (Some st)]> (heap s));
                out := _ |}).
  assert (H1' : heap s1 !! c1 = Some (Context (Some st))).
  { simpl. by rewrite !list_lookup_insert_ne. }
  assert (Hst' : heap s1 !! st = Some (State ConcreteStateA (Some c2))).
  { simpl. eapply lookup_insert_there. by rewrite list_lookup_insert_ne. }
  assert (H2' : heap s1 !! c2 = Some (Context (Some st))).
  { simpl. rewrite list_lookup_insert_ne by done. by eapply lookup_insert_there. }
  unfold Context_request1, Context_state, State_handle1.
  rewrite (bind_normal _ _ s1 s1 st);
    [|by rewrite (bind_normal _ _ _ _ _ (load_eq _ _ _ H1'))].
  rewrite (bind_normal _ _ _ _ _ (load_eq _ _ _ Hst')).
  rewrite (bind_normal _ _ _ _ _ (log_eq _ _ _)).
  rewrite (bind_normal _ _ _ _ _ (log_eq _ _ _)).
  unfold via_context.
  erewrite transition_to_new_eq by (simpl; exact H2').
  eexists. split; [reflexivity|]. cbn [heap].
  pose proof (lookup_lt_Some _ _ _ H2') as Hlt.
  destruct (moved_lookup (heap s1) c2 (Context (Some (length (heap s1))))
              (State ConcreteStateB None) (State ConcreteStateB (Some c2)) Hlt)
    as (M1 & M2 & M3 & _).
  split; [by apply M3|]. split; [by apply M3|].
  by exists (length (heap s1)).
Qed.

Lemma shared_state_serves_last_context_witness :
  let s := fst (alloc (Context None) (fst (context_run ConcreteStateA [] empty_store))) in
  heap s !! 1 = Some (Context (Some 0)) /\
  heap s !! 0 = Some (State ConcreteStateA (Some 1)) /\
  heap s !! 2 = Some (Context None) /\
  1 <> 2 /\
  exists s',
    (Context_transitionTo 2 0;; Context_request1 1) s = (s', Normal tt) /\
    heap s' !! 1 = Some (Context (Some 0)) /\
    heap s' !! 0 = Some (State ConcreteStateA (Some 2)) /\
    context_in s' 2 ConcreteStateB.
Proof.
  intros s.
  assert (H1 : heap s !! 1 = Some (Context (Some 0))) by reflexivity.
  assert (Hst : heap s !! 0 = Some (State ConcreteStateA (Some 1))) by reflexivity.
  assert (H2 : heap s !! 2 = Some (Context None)) by reflexivity.
  assert (Hne : 1 <> 2) by lia.
  refine (conj H1 (conj Hst (conj H2 (conj Hne _)))).
  exact (shared_state_serves_last_context s 1 2 0 None H1 Hst H2 Hne).
Defined.

(** *** Documents *)

Lemma change_to_new_eq (s : Store) (d : addr) (n : string) (k0 k : DocStateClass) :
  document_in s d n k0 ->
  (let! fresh := alloc (DocumentState k None) in Document_changeState d fresh) s =
    ({| heap := <[length (heap s) := DocumentState k (Some d)]>
                  (<[d := Document n (Some (length (heap s)))]>
                     (heap s ++ [DocumentState k None]));
        out := out s ++
          [("Document '" +:+ n +:+ "': Changing state from "
              +:+ doc_state_class_name k0 +:+ " to " +:+ doc_state_class_name k,
            INFO)] |},
     Normal tt).
Proof.
  intros (cur & Hd & Hcur). unfold bind at 1, alloc.
  erewrite Document_changeState_eq; simpl; [reflexivity| | |apply lookup_snoc_new].
  - by eapply lookup_snoc_old.
  - by eapply lookup_snoc_old.
Qed.

(** One client operation on a document in class [k]. *)
Lemma document_op_step (s : Store) (d : addr) (n : string) (k : DocStateClass)
    (op : DocumentOp) :
  document_in s d n k ->
  exists s',
    document_op d op s = (s', Normal tt) /\
    document_in s' d n (document_step k op) /\
    (forall a x, a <> d -> heap s !! a = Some x -> heap s' !! a = Some x) /\
    out s `prefix_of` out s'.
Proof.
  intros Hin. pose proof Hin as (cur & Hd & Hcur).
  pose proof (lookup_lt_Some _ _ _ Hd) as Hlt.
  assert (Hmove : forall (s0 : Store) (k' : DocStateClass),
            heap s0 = heap s -> out s `prefix_of` out s0 ->
            exists s',
              (let! fresh := alloc (DocumentState k' None) in
               Document_changeState d fresh) s0 = (s', Normal tt) /\
              document_in s' d n k' /\
              (forall a x, a <> d -> heap s !! a = Some x -> heap s' !! a = Some x) /\
              out s `prefix_of` out s').
  { intros s0 k' Hh Ho. eexists. split.
    - eapply change_to_new_eq. exists cur. rewrite Hh. split; eassumption.
    - cbn [heap out]. rewrite Hh.
      destruct (moved_lookup (heap s) d (Document n (Some (length (heap s))))
                  (DocumentState k' None) (DocumentState k' (Some d)) Hlt)
        as (M1 & M2 & M3 & _).
      split; [by exists (length (heap s))|].
      split; [exact M3|]. by apply prefix_app_r. }
  assert (Hstay : forall lines,
            document_in {| heap := heap s; out := out s ++ lines |} d n k /\
            (forall a x, a <> d -> heap s !! a = Some x -> heap s !! a = Some x) /\
            out s `prefix_of` out s ++ lines).
  { intros lines. split; [by exists cur|]. split; [done|]. by apply prefix_app_r. }
  assert (Hstate : Document_state d s = (s, Normal cur)).
  { unfold Document_state, bind, load. by rewrite Hd. }
  destruct op as [c|t]; simpl.
  - by apply Hmove.
  - destruct t, k; simpl;
      unfold Document_publish, Document_review, Document_reject,
        DocumentState_publish, DocumentState_review, DocumentState_reject;
      rewrite (bind_normal _ _ _ _ _ Hstate), (bind_normal _ _ _ _ _ (load_eq _ _ _ Hcur));
      repeat (erewrite bind_normal by (eapply doc_log_eq; simpl; eassumption));
      try (erewrite doc_log_eq by eassumption;
           eexists; split; [reflexivity|]; apply Hstay);
      unfold via_document;
      (apply Hmove; [done|simpl; rewrite <- ?app_assoc; by apply prefix_app_r]).
Qed.

Lemma document_ops_steps (ops : list DocumentOp) :
  forall (s : Store) (d : addr) (n : string) (k : DocStateClass),
    document_in s d n k ->
    exists s',
      document_ops d ops s = (s', Normal tt) /\
      document_in s' d n (fold_left document_step ops k) /\
      (forall a x, a <> d -> heap s !! a = Some x -> heap s' !! a = Some x) /\
      out s `prefix_of` out s'.
Proof.
  induction ops as [|op ops IH]; intros s d n k Hin; simpl.
  - exists s. repeat split; auto.
  - destruct (document_op_step s d n k op Hin) as (s1 & Heq & Hin1 & Hfr1 & Hpre1).
    destruct (IH s1 d n _ Hin1) as (s2 & Heq2 & Hin2 & Hfr2 & Hpre2).
    exists s2. rewrite (bind_normal _ _ _ _ _ Heq).
    repeat split; auto. by etrans.
Qed.

Lemma Document_new_in (s : Store) (n : string) :
  exists s1,
    Document_new n s = (s1, Normal (length (heap s))) /\
    document_in s1 (length (heap s)) n DraftState.
Proof.
  unfold Document_new, Document_set_state, Document_state, DocumentState_setDocument.
  open_eff.
  rewrite lookup_snoc_old with (y := Document n None) by apply lookup_snoc_new.
  simpl.
  rewrite lookup_insert_there with (y := Document n None)
    by (eapply lookup_snoc_old, lookup_snoc_new).
  simpl.
  assert (Hne : length (heap s) <> length (heap s ++ [Document n None])).
  { rewrite length_app. simpl. lia. }
  rewrite list_lookup_insert_ne by done.
  rewrite lookup_snoc_new. simpl.
  eexists. split; [reflexivity|].
  exists (length (heap s ++ [Document n None])). cbn [heap]. split.
  - rewrite list_lookup_insert_ne by done.
    eapply lookup_insert_there, lookup_snoc_old, lookup_snoc_new.
  - eapply lookup_insert_there. rewrite list_lookup_insert_ne by done.
    apply lookup_snoc_new.
Qed.

Lemma render_in (s : Store) (d : addr) (n : string) (k : DocStateClass) :
  document_in s d n k ->
  Document_render d s = (s, Normal (mode_text k)) /\
  Document_getName d s = (s, Normal n).
Proof.
  intros (cur & Hd & Hcur). split.
  - unfold Document_render, Document_state, DocumentState_render, DocumentState_class.
    open_eff. rewrite Hd. simpl. rewrite Hcur. simpl. by destruct k.
  - unfold Document_getName. open_eff. by rewrite Hd.
Qed.

(** X11.  A document behaves as the three-class automaton of the state
    methods: built with name [n] (in Draft) and put through any sequence
    of requests and state changes, every call returns and the document
    ends in the class the table reaches; [render] then returns the text
    of exactly that class, [getName] still returns [n], and neither
    changes the store. *)
Theorem document_follows_table (s : Store) (n : string) (ops : list DocumentOp) :
  exists s' this,
    document_run n ops s = (s', Normal this) /\
    document_in s' this n (fold_left document_step ops DraftState) /\
    Document_render this s' =
      (s', Normal (mode_text (fold_left document_step ops DraftState))) /\
    Document_getName this s' = (s', Normal n).
Proof.
  destruct (Document_new_in s n) as (s1 & Heq & Hin).
  destruct (document_ops_steps ops s1 _ _ _ Hin) as (s2 & Heq2 & Hin2 & _).
  exists s2, (length (heap s)).
  split; [|split; [exact Hin2|by apply render_in]].
  unfold document_run.
  rewrite (bind_normal _ _ _ _ _ Heq), (bind_normal _ _ _ _ _ Heq2). reflexivity.
Qed.

End StMore.

(** ** The back-reference of the current state *)

Module StBack.
Import St StFacts StMore.

(** C10, as stated, fails: one state object is handed to the
    constructors of two contexts.  It is installed as the current state
    of both, but it refers back to the second only, so the current state
    of the first context does not refer back to it; and a [request1]
    dispatched through the first context then moves the second one to
    class B and leaves the first where it was. *)
Lemma shared_state_refers_to_last_context :
  let r := (let! st := alloc (State ConcreteStateA None) in
            let! c1 := Context_new st in
            let! c2 := Context_new st in
            ret (st, c1, c2)) empty_store in
  let s := fst r in
  let s' := fst (Context_request1 1 s) in
  snd r = Normal (0, 1, 2) /\
  heap s !! 1 = Some (Context (Some 0)) /\
  heap s !! 2 = Some (Context (Some 0)) /\
  heap s !! 0 = Some (State ConcreteStateA (Some 2)) /\
  ~ context_linked s 1 /\
  snd (Context_request1 1 s) = Normal tt /\
  heap s' !! 1 = Some (Context (Some 0)) /\
  heap s' !! 2 = Some (Context (Some 3)) /\
  heap s' !! 3 = Some (State ConcreteStateB (Some 2)).
Proof.
  cbv zeta. split; [reflexivity|]. split; [reflexivity|].
  split; [reflexivity|]. split; [reflexivity|]. split.
  - intros (st & k & H1 & H2). vm_compute in H1. injection H1 as <-.
    vm_compute in H2. discriminate H2.
  - vm_compute. auto.
Qed.

(** C10, amended.  The incoming state object is installed and made to
    refer back, exactly: [transitionTo] and [new Context] on any state
    object, [changeState] and [new Document], each return, leave the
    incoming object as the current state of the context (document) with
    its back-reference set to that context (document), and change no
    other object.  And while the current state of a context (document)
    refers back to it, every request dispatched through it returns, and
    a transition the handler asks for through the reference is made on
    that same context (document), which ends with a current state of the
    class the handler chose that again refers back to it. *)
Theorem current_state_refers_back :
  (forall (s : Store) (this st : addr) (x y : option addr) (k : StateClass),
     heap s !! this = Some (Context x) ->
     heap s !! st = Some (State k y) ->
     exists s',
       Context_transitionTo this st s = (s', Normal tt) /\
       heap s' !! this = Some (Context (Some st)) /\
       heap s' !! st = Some (State k (Some this)) /\
       forall a, a <> this -> a <> st -> heap s' !! a = heap s !! a) /\
  (forall (s : Store) (st : addr) (y : option addr) (k : StateClass),
     heap s !! st = Some (State k y) ->
     exists s',
       Context_new st s = (s', Normal (length (heap s))) /\
       heap s' !! length (heap s) = Some (Context (Some st)) /\
       heap s' !! st = Some (State k (Some (length (heap s)))) /\
       forall a, a < length (heap s) -> a <> st -> heap s' !! a = heap s !! a) /\
  (forall (s : Store) (this cur st : addr) (n : string)
          (kc k : DocStateClass) (x y : option addr),
     heap s !! this = Some (Document n (Some cur)) ->
     heap s !! cur = Some (DocumentState kc x) ->
     heap s !! st = Some (DocumentState k y) ->
     exists s',
       Document_changeState this st s = (s', Normal tt) /\
       heap s' !! this = Some (Document n (Some st)) /\
       heap s' !! st = Some (DocumentState k (Some this)) /\
       forall a, a <> this -> a <> st -> heap s' !! a = heap s !! a) /\
  (forall (s : Store) (n : string),
     exists s',
       Document_new n s = (s', Normal (length (heap s))) /\
       heap s' !! length (heap s) = Some (Document n (Some (S (length (heap s))))) /\
       heap s' !! S (length (heap s)) =
         Some (DocumentState DraftState (Some (length (heap s)))) /\
       forall a, a < length (heap s) -> heap s' !! a = heap s !! a) /\
  (forall (s : Store) (this : addr) (k : StateClass) (op : ContextOp),
     context_in s this k ->
     exists s',
       context_op this op s = (s', Normal tt) /\
       context_in s' this (context_step k op)) /\
  (forall (s : Store) (d : addr) (n : string) (k : DocStateClass) (op : DocumentOp),
     document_in s d n k ->
     exists s',
       document_op d op s = (s', Normal tt) /\
       document_in s' d n (document_step k op)).
Proof.
  split; [|split; [|split; [|split; [|split]]]].
  - intros s this st x y k Hthis Hst.
    assert (Hne : this <> st) by (intros ->; congruence).
    eexists. split; [by eapply Context_transitionTo_eq|]. cbn [heap].
    split; [|split].
    + rewrite list_lookup_insert_ne by done. by eapply lookup_insert_there.
    + eapply lookup_insert_there. by rewrite list_lookup_insert_ne.
    + intros a Ha1 Ha2. by rewrite !list_lookup_insert_ne.
  - intros s st y k Hst.
    pose proof (lookup_lt_Some _ _ _ Hst) as Hlt.
    unfold Context_new. unfold bind at 1, alloc.
    erewrite bind_normal.
    2:{ eapply Context_transitionTo_eq; cbn [heap].
        - apply lookup_snoc_new.
        - by eapply lookup_snoc_old. }
    eexists. split; [reflexivity|]. cbn [heap].
    split; [|split].
    + rewrite list_lookup_insert_ne by lia.
      apply list_lookup_insert_eq. rewrite length_app. simpl. lia.
    + apply list_lookup_insert_eq. rewrite length_insert, length_app. simpl. lia.
    + intros a Ha1 Ha2. rewrite !list_lookup_insert_ne by lia.
      by rewrite lookup_app_l.
  - intros s this cur st n kc k x y Hthis Hcur Hst.
    assert (Hne : this <> st) by (intros ->; congruence).
    eexists. split; [by eapply Document_changeState_eq|]. cbn [heap].
    split; [|split].
    + rewrite list_lookup_insert_ne by done. by eapply lookup_insert_there.
    + eapply lookup_insert_there. by rewrite list_lookup_insert_ne.
    + intros a Ha1 Ha2. by rewrite !list_lookup_insert_ne.
  - intros s n.
    unfold Document_new, Document_set_state, Document_state, DocumentState_setDocument.
    open_eff.
    rewrite lookup_snoc_old with (y := Document n None) by apply lookup_snoc_new.
    simpl.
    rewrite lookup_insert_there with (y := Document n None)
      by (eapply lookup_snoc_old, lookup_snoc_new).
    simpl.
    assert (Hlen : length (heap s ++ [Document n None]) = S (length (heap s))).
    { rewrite length_app. simpl. lia. }
    assert (Hne : length (heap s) <> length (heap s ++ [Document n None])) by lia.
    rewrite list_lookup_insert_ne by done.
    rewrite lookup_snoc_new. simpl.
    eexists. split; [reflexivity|]. cbn [heap]. rewrite Hlen.
    split; [|split].
    + rewrite list_lookup_insert_ne by lia.
      eapply lookup_insert_there, lookup_snoc_old, lookup_snoc_new.
    + eapply lookup_insert_there. rewrite list_lookup_insert_ne by lia.
      rewrite <- Hlen. apply lookup_snoc_new.
    + intros a Ha. rewrite !list_lookup_insert_ne by lia.
      rewrite lookup_app_l by (rewrite length_app; simpl; lia).
      by rewrite lookup_app_l.
  - intros s this k op Hin.
    destruct (context_op_step s this k op Hin) as (s' & Heq & Hin' & _).
    by exists s'.
  - intros s d n k op Hin.
    destruct (document_op_step s d n k op Hin) as (s' & Heq & Hin' & _).
    by exists s'.
Qed.

End StBack.

(** ** More on the chat room: registration, broadcast, direct messages *)

Module MedMore.
Import Med MedFacts.

Lemma has_false_keys (n : string) (users : UserMap) :
  has n users = false <-> n ∉ map fst users.
Proof.
  induction users as [|[k v] users IH]; simpl.
  - split; [intros _; apply not_elem_of_nil|done].
  - rewrite orb_false_iff, not_elem_of_cons, IH.
    destruct (String.eqb_spec n k); split; intros [? ?]; split; auto; congruence.
Qed.

Lemma getName_setChatRoom (h : Heap) (user room u : addr) :
  getName (setChatRoom user room h) u = getName h u.
Proof.
  unfold getName, setChatRoom. simpl.
  destruct (userObjs h !! user) as [uo|] eqn:Hu; [|done].
  destruct (decide (u = user)) as [->|Hne].
  - rewrite list_lookup_insert_eq by (by eapply lookup_lt_Some). by rewrite Hu.
  - by rewrite list_lookup_insert_ne.
Qed.

(** *** The store a setup leaves *)

Lemma register_filed (s : Store) (room user : addr) :
  filed (fst s) -> filed (fst (fst (ChatRoom_register room user s))).
Proof.
  intros Hf.
  destruct (getName (fst s) user) as [n|] eqn:Hn;
    [|unfold ChatRoom_register, bind, get; simpl; by rewrite Hn].
  destruct (rooms (fst s) !! room) as [users|] eqn:Hr;
    [|unfold ChatRoom_register, bind, get; simpl; by rewrite Hn, Hr].
  destruct (has n users) eqn:Hhas;
    [unfold ChatRoom_register, bind, get; simpl; by rewrite Hn, Hr, Hhas|].
  rewrite (register_fresh _ _ _ _ _ Hn Hr Hhas). simpl.
  intros r us Hrs. simpl in Hrs.
  assert (Hold : forall k u, getName (fst s) u = Some k ->
            getName (setChatRoom user room
                       (set_room room (users ++ [(n, user)]) (fst s))) u = Some k).
  { intros k u Hk. by rewrite getName_setChatRoom. }
  destruct (decide (r = room)) as [->|Hne].
  - rewrite list_lookup_insert_eq in Hrs by (by eapply lookup_lt_Some).
    injection Hrs as <-. destruct (Hf room users Hr) as [Hnd Hnames]. split.
    + rewrite map_app. simpl. apply NoDup_app. split; [done|]. split.
      * intros k Hk Hk'. apply list_elem_of_singleton in Hk' as ->.
        by apply has_false_keys in Hhas.
      * apply NoDup_singleton.
    + intros k u Hin. apply Hold. apply elem_of_app in Hin as [Hin|Hin].
      * by apply Hnames.
      * apply list_elem_of_singleton in Hin. by injection Hin as -> ->.
  - rewrite list_lookup_insert_ne in Hrs by done.
    destruct (Hf r us Hrs) as [Hnd Hnames]. split; [done|].
    intros k u Hin. apply Hold. by apply Hnames.
Qed.

Lemma ChatUser_new_filed (s : Store) (n : string) :
  filed (fst s) -> filed (fst (fst (ChatUser_new n s))).
Proof.
  intros Hf r us Hrs. simpl in *. destruct (Hf r us Hrs) as [Hnd Hnames].
  split; [done|]. intros k u Hin. specialize (Hnames k u Hin).
  unfold getName in *. simpl.
  destruct (userObjs (fst s) !! u) as [uo|] eqn:Hu; [|done].
  by rewrite (lookup_app_l_Some _ _ _ _ Hu).
Qed.

Lemma ChatRoom_new_filed (s : Store) :
  filed (fst s) -> filed (fst (fst (ChatRoom_new s))).
Proof.
  intros Hf r us Hrs. simpl in *.
  apply lookup_app_Some in Hrs as [Hrs|[_ Hrs]].
  - exact (Hf r us Hrs).
  - apply list_lookup_singleton_Some in Hrs as [_ <-].
    split; [apply NoDup_nil_2|].
    intros k u Hin. by apply elem_of_nil in Hin.
Qed.

Lemma setup_keeps (P : Store -> Prop) :
  (forall s n, P s -> P (fst (ChatUser_new n s))) ->
  (forall s, P s -> P (fst (ChatRoom_new s))) ->
  (forall s r u, P s -> P (fst (ChatRoom_register r u s))) ->
  forall ops s, P s -> P (fst (setup ops s)).
Proof.
  intros Hu Hr Hg. induction ops as [|op ops IH]; intros s Hs; simpl; [done|].
  apply (bind_keeps P); [|intros [] s' Hs'; by apply IH].
  destruct op as [n| |r u]; unfold setup_step.
  - apply (bind_keeps P); [by apply Hu|intros a s' Hs'; exact Hs'].
  - apply (bind_keeps P); [by apply Hr|intros a s' Hs'; exact Hs'].
  - by apply Hg.
Qed.

Lemma setup_filed (ops : list Setup) : filed (fst (fst (setup ops empty_store))).
Proof.
  apply (setup_keeps (fun s => filed (fst s))).
  - intros s n. apply ChatUser_new_filed.
  - intros s. apply ChatRoom_new_filed.
  - intros s r u. apply register_filed.
  - intros r us Hrs. done.
Qed.

Lemma setup_wired (ops : list Setup) : wired (fst (fst (setup ops empty_store))).
Proof.
  apply (setup_keeps (fun s => wired (fst s))).
  - intros s n. apply ChatUser_new_wired.
  - intros s. apply ChatRoom_new_wired.
  - intros s r u. apply register_wired.
  - apply empty_wired.
Qed.

(** X12.  However users and rooms are created and registered, starting
    from nothing, every room ends up filing each of its users under the
    user's own name and no name twice, and every user a room holds has
    its [chatRoom] set to an existing room. *)
Theorem setup_leaves_rooms_consistent (ops : list Setup) :
  let h := fst (fst (setup ops empty_store)) in
  filed h /\ wired h.
Proof.
  split; [apply setup_filed|apply setup_wired].
Qed.

(** *** Broadcast and direct messages among chat users *)

Lemma forEach_chat_users (h : Heap) (sn message : string)
    (send_of : addr -> string -> Eff Log unit) (users : UserMap) :
  (forall k u, (k, u) ∈ users -> getName h u = Some k) ->
  forall out,
    forEach users (fun userName user =>
      if negb (String.eqb userName sn)
      then chat_users h user (send_of user) sn message
      else ret tt) out =
    (out ++ map (fun ku => received_line (fst ku) sn message)
              (filter (fun ku => fst ku <> sn) users),
     Normal tt).
Proof.
  unfold UserMap in *.
  induction users as [|[k u] users IH]; intros Hn out.
  - simpl. by rewrite app_nil_r.
  - assert (Hk : getName h u = Some k) by (apply Hn; by left).
    assert (Hrest : forall k' u', (k', u') ∈ users -> getName h u' = Some k')
      by (intros k' u' Hin; apply Hn; by right).
    cbn [forEach]. unfold bind at 1.
    destruct (String.eqb_spec k sn) as [->|Hne]; cbn [negb].
    + rewrite filter_cons_False by (simpl; intros H; by apply H).
      unfold ret at 1. by apply IH.
    + rewrite filter_cons_True by done.
      unfold chat_users, ChatUser_receive, log, modify. rewrite Hk.
      cbn [default]. rewrite (IH Hrest). cbn [map fst].
      by rewrite <- app_assoc.
Qed.

(** X13.  In a room of chat users that files every user under its own
    name, [send] writes its dispatch line and then delivers the message
    once to each user of the room whose name differs from the sender's,
    in the order in which they registered; the sender itself receives
    nothing, and the call returns. *)
Theorem send_reaches_all_but_sender
    (h : Heap) (depth : nat) (room : addr) (users : UserMap)
    (message : string) (sender : addr) (sn : string) (out : Log) :
  filed h ->
  rooms h !! room = Some users ->
  getName h sender = Some sn ->
  ChatRoom_send h (chat_users h) (S depth) room message sender out =
    (out ++ ("ChatRoom: Dispatching message from " +:+ sn, INFO)
         :: map (fun ku => received_line (fst ku) sn message)
              (filter (fun ku => fst ku <> sn) users),
     Normal tt).
Proof.
  intros Hf Hroom Hsn. rewrite ChatRoom_send_S, Hsn, Hroom.
  unfold bind at 1, log at 1, modify.
  rewrite forEach_chat_users by (apply (Hf room users Hroom)).
  by rewrite <- app_assoc.
Qed.

Lemma send_reaches_all_but_sender_witness :
  let h := heap_after (setup [NewRoom; NewUser "Alice"; NewUser "Bob"; NewUser "Charlie";
                              Register 0 0; Register 0 1; Register 0 2]) in
  filed h /\
  rooms h !! 0 = Some [("Alice", 0); ("Bob", 1); ("Charlie", 2)] /\
  getName h 1 = Some "Bob" /\
  ChatRoom_send h (chat_users h) 1 0 "Hi" 1 [] =
    ([("ChatRoom: Dispatching message from Bob", INFO);
      received_line "Alice" "Bob" "Hi"; received_line "Charlie" "Bob" "Hi"],
     Normal tt).
Proof.
  intros h.
  assert (H1 : filed h) by apply setup_filed.
  assert (H2 : rooms h !! 0 = Some [("Alice", 0); ("Bob", 1); ("Charlie", 2)])
    by reflexivity.
  assert (H3 : getName h 1 = Some "Bob") by reflexivity.
  refine (conj H1 (conj H2 (conj H3 _))).
  exact (send_reaches_all_but_sender h 0 0 _ "Hi" 1 "Bob" [] H1 H2 H3).
Defined.

(** X14.  A direct message to a name the room does not hold is not an
    error: the call returns after logging "User ... not found" at level
    ERROR and nobody receives anything.  To a name the room holds, the
    message is delivered to that user alone, whoever the sender is (the
    sender itself included). *)
Theorem direct_message_reaches_named_user_only
    (h : Heap) (depth : nat) (room : addr) (users : UserMap)
    (message : string) (sender : addr) (sn receiverName : string) (out : Log) :
  filed h ->
  rooms h !! room = Some users ->
  getName h sender = Some sn ->
  ChatRoom_sendDirectMessage h (chat_users h) depth room message sender receiverName out =
    (out ++
       (if has receiverName users then
          [("ChatRoom: Sending direct message from " +:+ sn +:+ " to " +:+ receiverName,
            INFO);
           received_line receiverName sn message]
        else
          [("ChatRoom: User " +:+ receiverName +:+ " not found", ERROR)]),
     Normal tt).
Proof.
  intros Hf Hroom Hsn. unfold ChatRoom_sendDirectMessage. rewrite Hsn, Hroom.
  destruct (Hf room users Hroom) as [_ Hnames].
  assert (Hget : match get_user receiverName users with
                 | Some u => has receiverName users = true /\
                             getName h u = Some receiverName
                 | None => has receiverName users = false
                 end).
  { clear Hroom. induction users as [|[k v] users IH]; simpl; [done|].
    destruct (String.eqb_spec receiverName k) as [->|Hne]; simpl.
    - split; [done|]. apply Hnames. by left.
    - apply IH. intros k' u' Hin. apply Hnames. by right. }
  destruct (get_user receiverName users) as [u|].
  - destruct Hget as [-> Hu].
    unfold chat_users, ChatUser_receive, bind, log, modify. rewrite Hu. simpl.
    by rewrite <- app_assoc.
  - by rewrite Hget.
Qed.

Lemma direct_message_reaches_named_user_only_witness :
  let h := heap_after (room_of_two "Alice" "Bob") in
  filed h /\
  rooms h !! 0 = Some [("Alice", 0); ("Bob", 1)] /\
  getName h 0 = Some "Alice" /\
  ChatRoom_sendDirectMessage h (chat_users h) 0 0 "Hi" 0 "Zoe" [] =
    ([("ChatRoom: User Zoe not found", ERROR)], Normal tt) /\
  ChatRoom_sendDirectMessage h (chat_users h) 0 0 "Hi" 0 "Alice" [] =
    ([("ChatRoom: Sending direct message from Alice to Alice", INFO);
      received_line "Alice" "Alice" "Hi"], Normal tt).
Proof.
  intros h.
  assert (H1 : filed h).
  { apply (setup_filed
             [NewRoom; NewUser "Alice"; NewUser "Bob"; Register 0 0; Register 0 1]). }
  assert (H2 : rooms h !! 0 = Some [("Alice", 0); ("Bob", 1)]) by reflexivity.
  assert (H3 : getName h 0 = Some "Alice") by reflexivity.
  refine (conj H1 (conj H2 (conj H3 (conj _ _)))).
  - exact (direct_message_reaches_named_user_only h 0 0 _ "Hi" 0 "Alice" "Zoe" [] H1 H2 H3).
  - exact (direct_message_reaches_named_user_only h 0 0 _ "Hi" 0 "Alice" "Alice" [] H1 H2 H3).
Defined.

(** *** Registration *)

Lemma get_user_snoc (key n : string) (v : addr) (users : UserMap) :
  get_user key (users ++ [(n, v)]) =
    match get_user key users with
    | Some u => Some u
    | None => if String.eqb key n then Some v else None
    end.
Proof.
  induction users as [|[k u] users IH]; simpl; [done|].
  by destruct (String.eqb key k).
Qed.

Lemma has_false_get_user (key : string) (users : UserMap) :
  has key users = false -> get_user key users = None.
Proof.
  induction users as [|[k u] users IH]; simpl; [done|].
  intros H. apply orb_false_iff in H as [-> H]. by apply IH.
Qed.

(** X15.  Registering a user under a name the room does not hold yet
    returns and binds the name: looking the name up afterwards gives that
    user, every other name is bound as before, and the user object now
    refers to the room. *)
Theorem register_binds_fresh_name
    (s : Store) (room user : addr) (n : string) (users : UserMap) :
  getName (fst s) user = Some n ->
  rooms (fst s) !! room = Some users ->
  has n users = false ->
  let r := ChatRoom_register room user s in
  snd r = Normal tt /\
  exists users',
    rooms (fst (fst r)) !! room = Some users' /\
    get_user n users' = Some user /\
    (forall k, k <> n -> get_user k users' = get_user k users) /\
    (chatRoom <$> userObjs (fst (fst r)) !! user) = Some (Some room).
Proof.
  intros Hn Hr Hhas r. unfold r. rewrite (register_fresh _ _ _ _ _ Hn Hr Hhas).
  split; [reflexivity|]. exists (users ++ [(n, user)]). cbn [fst snd].
  unfold getName in Hn.
  destruct (userObjs (fst s) !! user) as [uo|] eqn:Hu; [|done].
  repeat split.
  - unfold setChatRoom, set_room. simpl.
    apply list_lookup_insert_eq. by eapply lookup_lt_Some.
  - rewrite get_user_snoc, (has_false_get_user _ _ Hhas). by rewrite String.eqb_refl.
  - intros k Hk. rewrite get_user_snoc.
    destruct (get_user k users); [done|].
    by destruct (String.eqb_spec k n).
  - unfold setChatRoom, set_room. simpl. rewrite Hu.
    rewrite list_lookup_insert_eq by (by eapply lookup_lt_Some). reflexivity.
Qed.

Lemma register_binds_fresh_name_witness :
  let s := fst ((ChatRoom_new;; ChatUser_new "Alice";; ChatUser_new "Bob";;
                 ChatRoom_register 0 0) empty_store) in
  getName (fst s) 1 = Some "Bob" /\
  rooms (fst s) !! 0 = Some [("Alice", 0)] /\
  has "Bob" [("Alice", 0)] = false /\
  snd (ChatRoom_register 0 1 s) = Normal tt.
Proof.
  intros s.
  assert (H1 : getName (fst s) 1 = Some "Bob") by reflexivity.
  assert (H2 : rooms (fst s) !! 0 = Some [("Alice", 0)]) by reflexivity.
  assert (H3 : has "Bob" [("Alice", 0)] = false) by reflexivity.
  refine (conj H1 (conj H2 (conj H3 _))).
  exact (proj1 (register_binds_fresh_name s 0 1 "Bob" _ H1 H2 H3)).
Defined.

(** X16.  A user whose registration was ignored because its name is
    taken has no room: created and registered under a name the room
    already holds, the user logs its "sends" line when it sends and the
    call then throws a [TypeError] (its [chatRoom] is [undefined]);
    nothing is dispatched. *)
Theorem ignored_registrant_cannot_send
    (s : Store) (room : addr) (n : string) (users : UserMap)
    (receive_of : addr -> Receive) (depth : nat) (message : string) (out : Log) :
  rooms (fst s) !! room = Some users ->
  has n users = true ->
  let r := (let! u := ChatUser_new n in ChatRoom_register room u;; ret u) s in
  snd r = Normal (length (userObjs (fst s))) /\
  rooms (fst (fst r)) = rooms (fst s) /\
  ChatUser_send (fst (fst r)) receive_of depth (length (userObjs (fst s))) message out =
    (out ++ [(n +:+ " sends: " +:+ message, INFO)],
     Throw (TypeError "Cannot read properties of undefined")).
Proof.
  intros Hr Hhas r.
  set (h1 := {| userObjs := userObjs (fst s) ++ [{| name := n; chatRoom := None |}];
                rooms := rooms (fst s) |}).
  assert (Hu : userObjs h1 !! length (userObjs (fst s))
               = Some {| name := n; chatRoom := None |})
    by apply StFacts.lookup_snoc_new.
  assert (Hreg : ChatRoom_register room (length (userObjs (fst s))) (h1, snd s)
                 = ((h1, snd s), Normal tt)).
  { unfold ChatRoom_register, bind, get, getName. cbn [fst snd].
    rewrite Hu. cbn [fmap option_fmap option_map name].
    change (rooms h1) with (rooms (fst s)). by rewrite Hr, Hhas. }
  assert (Heq : r = ((h1, snd s), Normal (length (userObjs (fst s))))).
  { unfold r. rewrite (StFacts.bind_normal _ _ s (h1, snd s) (length (userObjs (fst s))));
      [|reflexivity].
    by rewrite (StFacts.bind_normal _ _ _ _ _ Hreg). }
  rewrite Heq. cbn [fst snd]. repeat split.
  unfold ChatUser_send, ChatUser_send_via. by rewrite Hu.
Qed.

Lemma ignored_registrant_cannot_send_witness :
  let s := fst (room_of_two "Alice" "Bob" empty_store) in
  rooms (fst s) !! 0 = Some [("Alice", 0); ("Bob", 1)] /\
  has "Alice" [("Alice", 0); ("Bob", 1)] = true /\
  ChatUser_send
    (fst (fst ((let! u := ChatUser_new "Alice" in ChatRoom_register 0 u;; ret u) s)))
    (chat_users (fst s)) 3 (length (userObjs (fst s))) "Hi" [] =
    ([] ++ [("Alice" +:+ " sends: " +:+ "Hi", INFO)],
     Throw (TypeError "Cannot read properties of undefined")).
Proof.
  intros s.
  assert (H1 : rooms (fst s) !! 0 = Some [("Alice", 0); ("Bob", 1)]) by reflexivity.
  assert (H2 : has "Alice" [("Alice", 0); ("Bob", 1)] = true) by reflexivity.
  refine (conj H1 (conj H2 _)).
  exact (proj2 (proj2 (ignored_registrant_cannot_send s 0 "Alice" _
                         (chat_users (fst s)) 3 "Hi" [] H1 H2))).
Defined.

(** X17.  A user sends to the room that registered it last: once a
    room has registered a user (under a name new to that room), a send by
    that user logs its "sends" line and goes to exactly that room,
    whichever rooms registered the user before; the user maps of the
    other rooms are untouched, so they still deliver to the user. *)
Theorem sends_go_to_last_room
    (s : Store) (room user : addr) (n : string) (users : UserMap)
    (receive_of : addr -> Receive) (depth : nat) (message : string) (out : Log) :
  getName (fst s) user = Some n ->
  rooms (fst s) !! room = Some users ->
  has n users = false ->
  let h' := fst (fst (ChatRoom_register room user s)) in
  ChatUser_send h' receive_of depth user message out =
    ChatRoom_send h' receive_of depth room message user
      (out ++ [(n +:+ " sends: " +:+ message, INFO)]) /\
  forall r, r <> room -> rooms h' !! r = rooms (fst s) !! r.
Proof.
  intros Hn Hr Hhas h'. unfold h'. rewrite (register_fresh _ _ _ _ _ Hn Hr Hhas).
  cbn [fst]. unfold getName in Hn.
  destruct (userObjs (fst s) !! user) as [uo|] eqn:Hu; [|done].
  injection Hn as Hn. split.
  - unfold ChatUser_send, ChatUser_send_via, setChatRoom, set_room. cbn [userObjs].
    rewrite Hu. rewrite list_lookup_insert_eq by (by eapply lookup_lt_Some).
    cbn [name chatRoom]. rewrite Hn. reflexivity.
  - intros r Hne. unfold setChatRoom, set_room. cbn [rooms].
    by rewrite list_lookup_insert_ne.
Qed.

Lemma sends_go_to_last_room_witness :
  let s := fst (setup [NewRoom; NewRoom; NewUser "Alice"; NewUser "Bob";
                       Register 0 0; Register 0 1; Register 1 1] empty_store) in
  let h' := fst (fst (ChatRoom_register 1 0 s)) in
  getName (fst s) 0 = Some "Alice" /\
  rooms (fst s) !! 1 = Some [("Bob", 1)] /\
  has "Alice" [("Bob", 1)] = false /\
  ChatUser_send h' (chat_users h') 1 0 "Hi" [] =
    ChatRoom_send h' (chat_users h') 1 1 "Hi" 0
      ([] ++ [("Alice" +:+ " sends: " +:+ "Hi", INFO)]) /\
  rooms h' !! 0 = rooms (fst s) !! 0.
Proof.
  intros s h'.
  assert (H1 : getName (fst s) 0 = Some "Alice") by reflexivity.
  assert (H2 : rooms (fst s) !! 1 = Some [("Bob", 1)]) by reflexivity.
  assert (H3 : has "Alice" [("Bob", 1)] = false) by reflexivity.
  refine (conj H1 (conj H2 (conj H3 _))).
  destruct (sends_go_to_last_room s 1 0 "Alice" _ (chat_users h') 1 "Hi" [] H1 H2 H3)
    as [Hsend Hrooms].
  split; [exact Hsend|]. apply Hrooms. lia.
Defined.

(** *** The concrete mediator *)

(** X18.  The concrete mediator reacts to the events "A" and "D"
    only: any other event returns at once with the log untouched.  A
    component whose mediator was never set logs its own line and then
    throws a [TypeError]. *)
Theorem mediator_ignores_unknown_events :
  (forall (sender : Sender) (event : string) (out : Log),
     event <> "A" -> event <> "D" ->
     ConcreteMediator_notify sender event out = (out, Normal tt)) /\
  (forall out,
     Component1_doA None out =
       (out ++ [("Component 1 does A.", INFO)],
        Throw (TypeError "Cannot read properties of undefined"))) /\
  (forall out,
     Component2_doD None out =
       (out ++ [("Component 2 does D.", INFO)],
        Throw (TypeError "Cannot read properties of undefined"))).
Proof.
  repeat split; try reflexivity.
  intros sender event out HA HD. unfold ConcreteMediator_notify.
  apply String.eqb_neq in HA, HD. by rewrite HA, HD.
Qed.

Lemma mediator_ignores_unknown_events_witness :
  "B" <> "A" /\ "B" <> "D" /\
  ConcreteMediator_notify TheComponent1 "B" [] = ([], Normal tt).
Proof.
  assert (H1 : "B" <> "A") by discriminate.
  assert (H2 : "B" <> "D") by discriminate.
  refine (conj H1 (conj H2 _)).
  exact (proj1 mediator_ignores_unknown_events TheComponent1 "B" [] H1 H2).
Defined.

End MedMore.

(** ** The flyweight factory *)

Module FlyFacts.
Import Fly.

Local Set Warnings "-clear-no-such-hyp".

Section Factory.

Variable inherited : string -> bool.
Variable accessor : string -> bool.

Lemma getFlyweight_own (st : list string) (f : Factory) (out : Log) (a : addr) :
  flyweights f !! getKey st = Some a ->
  getFlyweight inherited st (f, out) =
    ((f, out ++ [("FlyweightFactory: Reusing existing flyweight.", INFO)]),
     Normal (AFlyweight a)).
Proof.
  intros Hk. unfold getFlyweight, bind, get, key_in, read. cbn [fst snd].
  rewrite Hk. rewrite bool_decide_eq_true_2 by (by eexists). simpl.
  by rewrite Hk.
Qed.

Lemma getFlyweight_inherited (st : list string) (f : Factory) (out : Log) :
  flyweights f !! getKey st = None ->
  inherited (getKey st) = true ->
  getFlyweight inherited st (f, out) =
    ((f, out ++ [("FlyweightFactory: Reusing existing flyweight.", INFO)]),
     Normal NotAFlyweight).
Proof.
  intros Hk Hi. unfold getFlyweight, bind, get, key_in, read. cbn [fst snd].
  rewrite Hi, orb_true_r. simpl. by rewrite Hk.
Qed.

Lemma getFlyweight_new (st : list string) (f : Factory) (out : Log) :
  flyweights f !! getKey st = None ->
  inherited (getKey st) = false ->
  getFlyweight inherited st (f, out) =
    (({| flyweights := <[getKey st := length (objs f)]> (flyweights f);
         objs := objs f ++ [st] |},
      out ++ [("FlyweightFactory: Can't find a flyweight, creating new one.", INFO)]),
     Normal (AFlyweight (length (objs f)))).
Proof.
  intros Hk Hi. unfold getFlyweight, bind, get, key_in, read. cbn [fst snd].
  rewrite Hi, orb_false_r, Hk.
  rewrite bool_decide_eq_false_2 by (intros [? ?]; done). simpl.
  by rewrite lookup_insert_eq.
Qed.


(** One request: it returns, keeps every flyweight filed under the key
    of its own state, and adds its key unless the key is already there
    or is an inherited name. *)
Lemma getFlyweight_step (st : list string) (f : Factory) (out : Log) :
  keyed f ->
  let r := getFlyweight inherited st (f, out) in
  (exists x, snd r = Normal x) /\
  keyed (fst (fst r)) /\
  dom (flyweights (fst (fst r))) =
    dom (flyweights f) ∪ own_keys inherited [st].
Proof.
  intros Hkeyed r. unfold r. clear r. unfold own_keys.
  cbn [map]. destruct (flyweights f !! getKey st) as [a|] eqn:Hk.
  - rewrite (getFlyweight_own _ _ _ _ Hk). cbn [fst snd].
    split; [by eexists|]. split; [done|].
    apply elem_of_dom_2 in Hk.
    destruct (inherited (getKey st)) eqn:Hi.
    + rewrite filter_cons_False by (rewrite Hi; done). rewrite filter_nil.
      set_solver.
    + rewrite filter_cons_True by exact Hi. rewrite filter_nil. set_solver.
  - destruct (inherited (getKey st)) eqn:Hi.
    + rewrite (getFlyweight_inherited _ _ _ Hk Hi). cbn [fst snd].
      rewrite filter_cons_False by (rewrite Hi; done). rewrite filter_nil.
      split; [by eexists|]. split; [done|]. set_solver.
    + rewrite (getFlyweight_new _ _ _ Hk Hi). cbn [fst snd flyweights objs].
      rewrite filter_cons_True by exact Hi. rewrite filter_nil.
      split; [by eexists|]. split.
      * intros key a Ha. cbn [flyweights objs] in *.
        destruct (decide (key = getKey st)) as [->|Hne].
        -- rewrite lookup_insert_eq in Ha. injection Ha as <-.
           exists st. split; [by apply list_lookup_middle|done].
        -- rewrite lookup_insert_ne in Ha by done.
           destruct (Hkeyed _ _ Ha) as (state & Hs & Hkey).
           exists state. split; [|done]. by apply lookup_app_l_Some.
      * rewrite dom_insert_L. set_solver.
Qed.

(** The constructor: defined when no initial key has an inherited
    setter, and then every initial key is filed, inherited or not. *)
Lemma fill_spec (init : list (list string)) :
  forall f,
    keyed f ->
    (forall st, st ∈ init -> accessor (getKey st) = false) ->
    exists f',
      fill accessor init f = Some f' /\
      keyed f' /\
      dom (flyweights f') = dom (flyweights f) ∪ list_to_set (map getKey init).
Proof.
  induction init as [|st init IH]; intros f Hkeyed Hacc; simpl.
  - exists f. split; [done|]. split; [done|]. set_solver.
  - rewrite (Hacc st) by (by left).
    destruct (IH {| flyweights := <[getKey st := length (objs f)]> (flyweights f);
                    objs := objs f ++ [st] |}) as (f' & Hfill & Hk' & Hdom).
    + intros key a Ha. cbn [flyweights objs] in *.
      destruct (decide (key = getKey st)) as [->|Hne].
      * rewrite lookup_insert_eq in Ha. injection Ha as <-.
        exists st. split; [by apply list_lookup_middle|done].
      * rewrite lookup_insert_ne in Ha by done.
        destruct (Hkeyed _ _ Ha) as (state & Hs & Hkey).
        exists state. split; [|done]. by apply lookup_app_l_Some.
    + intros st' Hst'. apply Hacc. by right.
    + exists f'. split; [done|]. split; [done|].
      rewrite Hdom. cbn [flyweights]. rewrite dom_insert_L. set_solver.
Qed.

Lemma getFlyweights_spec (reqs : list (list string)) :
  forall f out,
    keyed f ->
    let r := getFlyweights inherited reqs (f, out) in
    snd r = Normal tt /\
    keyed (fst (fst r)) /\
    dom (flyweights (fst (fst r))) = dom (flyweights f) ∪ own_keys inherited reqs.
Proof.
  induction reqs as [|st reqs IH]; intros f out Hkeyed; simpl.
  - split; [done|]. split; [done|]. unfold own_keys. simpl. set_solver.
  - destruct (getFlyweight_step st f out Hkeyed) as ([x Hx] & Hk1 & Hdom1).
    unfold bind. destruct (getFlyweight inherited st (f, out)) as [[f1 o1] r1].
    cbn [fst snd] in *. subst r1.
    destruct (IH f1 o1 Hk1) as (Hr & Hk2 & Hdom2).
    split; [done|]. split; [done|].
    rewrite Hdom2, Hdom1. unfold own_keys. cbn [map].
    destruct (inherited (getKey st)) eqn:Hi.
    + rewrite !filter_cons_False by (rewrite Hi; done). set_solver.
    + rewrite !filter_cons_True by done. set_solver.
Qed.

(** A factory as the constructor and any requests leave it. *)
Lemma factory_spec (init reqs : list (list string)) (out : Log) :
  (forall st, st ∈ init -> accessor (getKey st) = false) ->
  exists f0,
    FlyweightFactory_new accessor init = Some f0 /\
    let r := getFlyweights inherited reqs (f0, out) in
    snd r = Normal tt /\
    keyed (fst (fst r)) /\
    dom (flyweights (fst (fst r))) =
      list_to_set (map getKey init) ∪ own_keys inherited reqs.
Proof.
  intros Hacc. unfold FlyweightFactory_new.
  destruct (fill_spec init {| flyweights := ∅; objs := [] |}) as (f0 & Hfill & Hk & Hdom).
  { intros key a Ha. cbn [flyweights] in Ha. by rewrite lookup_empty in Ha. }
  { exact Hacc. }
  exists f0. split; [exact Hfill|].
  destruct (getFlyweights_spec reqs f0 out Hk) as (Hr & Hk' & Hdom').
  split; [exact Hr|]. split; [exact Hk'|].
  rewrite Hdom', Hdom. cbn [flyweights]. set_solver.
Qed.

Lemma own_keys_not_inherited (reqs : list (list string)) (key : string) :
  key ∈ own_keys inherited reqs -> inherited key = false.
Proof.
  unfold own_keys. rewrite elem_of_list_to_set, list_elem_of_filter. by intros [? _].
Qed.

(** X20.  The name of an inherited property, such as ["toString"], is
    a key of the factory only if the constructor filed it.  On a factory
    built from initial states (none of them under a name with an
    inherited setter) and asked for any states since, a request for a
    state whose key is an inherited name always logs "Reusing" and
    creates nothing.  If no initial state had that key, what it returns
    is not a flyweight (it is the inherited member); if one had, it
    returns the flyweight the constructor filed under that key, whose
    own state has that key. *)
Theorem inherited_name_is_filed_by_constructor_only
    (init reqs : list (list string)) (st : list string) (out : Log) :
  (forall st0, st0 ∈ init -> accessor (getKey st0) = false) ->
  inherited (getKey st) = true ->
  exists f0,
    FlyweightFactory_new accessor init = Some f0 /\
    let s := fst (getFlyweights inherited reqs (f0, out)) in
    let reused :=
      (fst s, snd s ++ [("FlyweightFactory: Reusing existing flyweight.", INFO)]) in
    (getKey st ∉ map getKey init ->
       getFlyweight inherited st s = (reused, Normal NotAFlyweight)) /\
    (getKey st ∈ map getKey init ->
       exists a st',
         getFlyweight inherited st s = (reused, Normal (AFlyweight a)) /\
         objs (fst s) !! a = Some st' /\ getKey st' = getKey st).
Proof.
  intros Hacc Hi.
  destruct (factory_spec init reqs out Hacc) as (f0 & Hnew & _ & Hk & Hdom).
  exists f0. split; [exact Hnew|].
  destruct (getFlyweights inherited reqs (f0, out)) as [[f o] r].
  cbn [fst snd] in *. split.
  - intros Hnot. apply getFlyweight_inherited; [|exact Hi].
    apply not_elem_of_dom. rewrite Hdom. intros Hin.
    apply elem_of_union in Hin as [Hin|Hin].
    + by apply elem_of_list_to_set in Hin.
    + apply own_keys_not_inherited in Hin. congruence.
  - intros Hin.
    assert (Hd : getKey st ∈ dom (flyweights f)).
    { rewrite Hdom. apply elem_of_union_l. by apply elem_of_list_to_set. }
    apply elem_of_dom in Hd as [a Ha].
    destruct (Hk _ _ Ha) as (st' & Hs' & Hkey).
    exists a, st'. split; [|done]. by apply getFlyweight_own.
Qed.

(** X21.  A factory built from initial states (none of them under a
    name with an inherited setter, such as ["__proto__"]) and then asked
    for any sequence of states holds exactly one flyweight for each
    distinct key among the initial keys and the requested keys that are
    not inherited names, each filed under the key of its own shared
    state; so its count is the number of these distinct keys, however
    often a key was asked for. *)
Theorem one_flyweight_per_key
    (init reqs : list (list string)) (out : Log) :
  (forall st, st ∈ init -> accessor (getKey st) = false) ->
  exists f0,
    FlyweightFactory_new accessor init = Some f0 /\
    let r := getFlyweights inherited reqs (f0, out) in
    snd r = Normal tt /\
    keyed (fst (fst r)) /\
    dom (flyweights (fst (fst r))) =
      list_to_set (map getKey init) ∪ own_keys inherited reqs /\
    count (fst (fst r)) =
      size (list_to_set (map getKey init) ∪ own_keys inherited reqs : gset string).
Proof.
  intros Hacc.
  destruct (factory_spec init reqs out Hacc) as (f0 & Hnew & Hr & Hk & Hdom).
  exists f0. split; [exact Hnew|]. cbn zeta.
  split; [exact Hr|]. split; [exact Hk|]. split; [exact Hdom|].
  unfold count. rewrite <- Hdom. by rewrite size_dom.
Qed.

End Factory.


Lemma inherited_name_is_filed_by_constructor_only_witness :
  let init := [["toString"]; ["BMW"; "M5"; "red"]] in
  let reqs := [["valueOf"]; ["BMW"; "X6"; "white"]] in
  (forall st0, st0 ∈ init -> sample_accessor (getKey st0) = false) /\
  sample_inherited (getKey ["valueOf"]) = true /\
  sample_inherited (getKey ["toString"]) = true /\
  (getKey ["valueOf"] ∉ map getKey init) /\
  (getKey ["toString"] ∈ map getKey init) /\
  exists f0,
    FlyweightFactory_new sample_accessor init = Some f0 /\
    let s := fst (getFlyweights sample_inherited reqs (f0, [])) in
    let reused :=
      (fst s, snd s ++ [("FlyweightFactory: Reusing existing flyweight.", INFO)]) in
    getFlyweight sample_inherited ["valueOf"] s = (reused, Normal NotAFlyweight) /\
    getFlyweight sample_inherited ["toString"] s = (reused, Normal (AFlyweight 0)).
Proof.
  intros init reqs.
  assert (H1 : forall st0, st0 ∈ init -> sample_accessor (getKey st0) = false).
  { intros st0 Hin. unfold init in Hin.
    repeat (apply elem_of_cons in Hin as [->|Hin]; [reflexivity|]).
    by apply elem_of_nil in Hin. }
  assert (H2 : sample_inherited (getKey ["valueOf"]) = true) by reflexivity.
  assert (H3 : sample_inherited (getKey ["toString"]) = true) by reflexivity.
  assert (H4 : getKey ["valueOf"] ∉ map getKey init).
  { intros Hin. unfold init in Hin. cbn [map] in Hin.
    repeat (apply elem_of_cons in Hin as [Hin|Hin]; [discriminate Hin|]).
    by apply elem_of_nil in Hin. }
  assert (H5 : getKey ["toString"] ∈ map getKey init) by (by left).
  refine (conj H1 (conj H2 (conj H3 (conj H4 (conj H5 _))))).
  destruct (inherited_name_is_filed_by_constructor_only
              sample_inherited sample_accessor init reqs ["valueOf"] [] H1 H2)
    as (f0 & Hnew & Hno & _).
  exists f0. split; [exact Hnew|]. split; [exact (Hno H4)|].
  vm_compute in Hnew. injection Hnew as <-. vm_compute. reflexivity.
Defined.

Lemma one_flyweight_per_key_witness :
  let init := cars ++ [["toString"]] in
  let reqs := [["BMW"; "M5"; "red"]; ["BMW"; "X1"; "red"]; ["valueOf"];
               ["BMW"; "X1"; "red"]; ["toString"]] in
  (forall st, st ∈ init -> sample_accessor (getKey st) = false) /\
  exists f0,
    FlyweightFactory_new sample_accessor init = Some f0 /\
    count (fst (fst (getFlyweights sample_inherited reqs (f0, [])))) =
      size (list_to_set (map getKey init) ∪ own_keys sample_inherited reqs
            : gset string) /\
    size (list_to_set (map getKey init) ∪ own_keys sample_inherited reqs
          : gset string) = 7.
Proof.
  intros init reqs.
  assert (H1 : forall st, st ∈ init -> sample_accessor (getKey st) = false).
  { intros st Hin. unfold init, cars in Hin. cbn [app] in Hin.
    repeat (apply elem_of_cons in Hin as [->|Hin]; [reflexivity|]).
    by apply elem_of_nil in Hin. }
  split; [exact H1|].
  destruct (one_flyweight_per_key sample_inherited sample_accessor init reqs [] H1)
    as (f0 & Hnew & _ & _ & _ & Hcount).
  exists f0. split; [exact Hnew|]. split; [exact Hcount|].
  vm_compute. reflexivity.
Defined.

End FlyFacts.
